(** * VectorManager: batching, wave dispatch and result delivery

    A shallow embedding of [core/vector_manager.js].  The manager collects
    [create] requests in a queue, splits the queued strings into batches
    bounded by a character budget, sends the batches to the vector engine in
    waves and writes one outcome per request into a result store that each
    caller polls.

    Conventions of the embedding:
    - a JavaScript string is a [string]; [String.length] is its [length] and
      [slice(0, n)] keeps its first [n] characters;
    - the sizes [maximumBatchSize] and [maximumParallelRequests] are counts,
      hence [nat]; the two queue times are [Z], because the code subtracts
      them;
    - objects that the code compares by identity (the queued [{value}]
      items, [Error] instances, timer handles) carry a numeric identity;
    - the [WeakMap] [_results] is a [gmap] keyed by item identity;
    - the engine is an oracle that gives, for the n-th invocation of a flush
      and its argument, the way that invocation settles. *)

From Stdlib Require Import QArith.
From stdpp Require Import gmap strings list fin_maps pretty.

#[local] Set Warnings "-register-all".
Open Scope string_scope.
Open Scope list_scope.
Open Scope stdpp_scope.
Open Scope nat_scope.

(** ** JavaScript values *)

Inductive Number :=
| NaN
| Infinity (negative : bool)
| Finite (q : Q).

Inductive Value :=
| VUndefined
| VNull
| VBool (b : bool)
| VNum (n : Number)
| VStr (s : string)
| VArray (elems : list Value)
| VError (id : nat) (message : string)
| VObject (id : nat).

(** The sentinel [-1] stored for a position without a usable vector. *)
Definition minus_one : Value := VNum (Finite (-1)).

(** [ToBoolean]. *)
Definition truthy (v : Value) : bool :=
  match v with
  | VUndefined | VNull => false
  | VBool b => b
  | VNum NaN => false
  | VNum (Infinity _) => true
  | VNum (Finite q) => negb (Qnum q =? 0)%Z
  | VStr s => negb (Nat.eqb (String.length s) 0)
  | VArray _ | VError _ _ | VObject _ => true
  end.

(** [Array.isArray]. *)
Definition isArray (v : Value) : bool :=
  match v with VArray _ => true | _ => false end.

(** [v instanceof Error]. *)
Definition instanceof_Error (v : Value) : bool :=
  match v with VError _ _ => true | _ => false end.

(** [typeof v === 'object'] ([null] included, as in JavaScript). *)
Definition typeof_object (v : Value) : bool :=
  match v with
  | VNull | VArray _ | VError _ _ | VObject _ => true
  | _ => false
  end.

(** [s.slice(0, n)] for a count [n]. *)
Definition slice0 (n : nat) (s : string) : string := String.substring 0 n s.

(** ** The batching step of [batchVectorize]

    <<
    const batches = [[]];
    let curBatchSize = 0;
    while (strValues.length) {
      const str = strValues.shift().slice(0, this.maximumBatchSize);
      let n = batches.length - 1;
      curBatchSize += str.length;
      if (curBatchSize > this.maximumBatchSize) {
        batches.push([str]);
        n = batches.length - 1;
        curBatchSize = str.length;
      } else {
        batches[n].push(str);
      }
    }
    >>

    One iteration of the loop is [split_step]; the loop state is the pair of
    [batches] and [curBatchSize]. *)

Definition total_length (b : list string) : nat :=
  sum_list (String.length <$> b).

Definition split_step (maximumBatchSize : nat)
    (st : list (list string) * nat) (raw : string) : list (list string) * nat :=
  let '(batches, curBatchSize) := st in
  let str := slice0 maximumBatchSize raw in
  let n := length batches - 1 in
  let curBatchSize := curBatchSize + String.length str in
  if maximumBatchSize <? curBatchSize
  then (batches ++ [[str]], String.length str)
  else (alter (λ b, b ++ [str]) n batches, curBatchSize).

Definition split_batches (maximumBatchSize : nat) (strValues : list string)
    : list (list string) :=
  (foldl (split_step maximumBatchSize) ([[]], 0) strValues).1.

(** The two built-in conversions the module relies on are left abstract:
    [Number.prototype.toString] and [JSON.stringify]. *)
Class Builtins := {
  Number_toString : Number → string;
  JSON_stringify : Value → string;
}.

(** [String(v)], also what a template literal and [v + ''] produce.
    [Array.prototype.join] renders [null] and [undefined] as nothing. *)
Fixpoint ToString `{Builtins} (v : Value) : string :=
  match v with
  | VUndefined => "undefined"
  | VNull => "null"
  | VBool true => "true"
  | VBool false => "false"
  | VNum n => Number_toString n
  | VStr s => s
  | VArray elems =>
      let element (e : Value) : string :=
        match e with
        | VUndefined | VNull => ""
        | _ => ToString e
        end in
      (fix join (l : list Value) : string :=
         match l with
         | [] => ""
         | [e] => element e
         | e :: l' => element e +:+ "," +:+ join l'
         end) elems
  | VError _ message =>
      if Nat.eqb (String.length message) 0 then "Error"
      else "Error: " +:+ message
  | VObject _ => "[object Object]"
  end.

(** [convertToString (value)] *)
Definition convertToString `{Builtins} (value : Value) : string :=
  match value with
  | VNull | VUndefined => ""
  | _ => if typeof_object value then JSON_stringify value else ToString value
  end.

(** The [message] of [new Error(arg)]. *)
Definition Error_message `{Builtins} (arg : Value) : string :=
  match arg with
  | VUndefined => ""
  | _ => ToString arg
  end.


(** ** Requests, engine outcomes and the state of one flush *)

(** A queued [{value}] object; [item_id] is its identity, the key under
    which the [WeakMap] stores its outcome. *)
Record Item := { item_id : nat; item_value : Value }.

(** One entry of [Promise.allSettled]: [{status: 'fulfilled', value}] or
    [{status: 'rejected', reason}]. *)
Inductive Settled :=
| Fulfilled (value : Value)
| Rejected (reason : Value).

(** The engine as seen by one flush: how its [n]-th invocation, made with
    the given batch, settles. *)
Definition Engine := nat → list string → Settled.

(** What [batchVectorize] reads and writes while it distributes outcomes:
    the allocator of object identities, the [_results] store, the cursor
    [i], and two traces kept for the proofs: every [_results.set] in order,
    and the batches handed to the engine, wave by wave. *)
Record Flush := {
  heap_next : nat;
  results : gmap nat Value;
  cursor : nat;
  set_log : list (nat * Value);
  wave_log : list (list (list string));
}.

Inductive Abort :=
| OutOfFuel
| TypeError.

Definition M (A : Type) : Type := Flush → Abort + A * Flush.

#[local] Instance M_ret : MRet M := λ A x st, inr (x, st).
#[local] Instance M_bind : MBind M := λ A B f c st,
  match c st with
  | inl e => inl e
  | inr (x, st') => f x st'
  end.

Definition throw {A : Type} (e : Abort) : M A := λ _, inl e.

(** [new Error(arg)] *)
Definition new_Error `{Builtins} (arg : Value) : M Value := λ st,
  inr (VError (heap_next st) (Error_message arg),
       {| heap_next := S (heap_next st); results := results st;
          cursor := cursor st; set_log := set_log st;
          wave_log := wave_log st |}).

(** [queue[i++]] *)
Definition queue_next (queue : list Item) : M (option Item) := λ st,
  inr (queue !! cursor st,
       {| heap_next := heap_next st; results := results st;
          cursor := S (cursor st); set_log := set_log st;
          wave_log := wave_log st |}).

(** [this._results.set(key, v)]; a [WeakMap] refuses [undefined] as key. *)
Definition results_set (key : option Item) (v : Value) : M () :=
  match key with
  | None => throw TypeError
  | Some item => λ st,
      inr ((),
           {| heap_next := heap_next st;
              results := <[item_id item := v]> (results st);
              cursor := cursor st;
              set_log := set_log st ++ [(item_id item, v)];
              wave_log := wave_log st |})
  end.

Definition log_wave (parallelBatches : list (list string)) : M () := λ st,
  inr ((),
       {| heap_next := heap_next st; results := results st;
          cursor := cursor st; set_log := set_log st;
          wave_log := wave_log st ++ [parallelBatches] |}).

(** [l.forEach((x, k) => f x k)], with [k] counted from [from]. *)
Fixpoint forEach_from {A : Type} (from : nat) (f : A → nat → M ())
    (l : list A) : M () :=
  match l with
  | [] => mret ()
  | x :: l' => f x from ≫= λ _, forEach_from (S from) f l'
  end.

Definition forEach {A : Type} (f : A → nat → M ()) (l : list A) : M () :=
  forEach_from 0 f l.

(** ** Distribution of a wave's outcomes

    <<
    parallelVectors.forEach((result, j) => {
      if (result.status === 'rejected') {
        parallelBatches[j].forEach((str, k) => {
          let reason = result.reason;
          if (!(reason instanceof Error)) {
            reason = new Error(reason);
          }
          this._results.set(queue[i++], reason);
        });
      } else {
        let vectors = result.value;
        vectors = Array.isArray(vectors) ? vectors : [];
        parallelBatches[j].forEach((str, k) => {
          if (vectors[k]) {
            this._results.set(queue[i++], vectors[k]);
          } else {
            this._results.set(queue[i++], -1);
          }
        });
      }
    });
    >> *)

Definition set_rejected `{Builtins} (queue : list Item) (result_reason : Value)
    (str : string) (k : nat) : M () :=
  reason ← (if instanceof_Error result_reason then mret result_reason
            else new_Error result_reason);
  key ← queue_next queue;
  results_set key reason.

Definition set_fulfilled (queue : list Item) (vectors : list Value)
    (str : string) (k : nat) : M () :=
  let entry := default VUndefined (vectors !! k) in
  if truthy entry
  then key ← queue_next queue; results_set key entry
  else key ← queue_next queue; results_set key minus_one.

Definition settle_batch `{Builtins} (queue : list Item)
    (parallelBatches : list (list string)) (result : Settled) (j : nat)
    : M () :=
  match parallelBatches !! j with
  | None => throw TypeError
  | Some batch =>
      match result with
      | Rejected reason => forEach (set_rejected queue reason) batch
      | Fulfilled value =>
          let vectors :=
            match value with VArray elems => elems | _ => [] end in
          forEach (set_fulfilled queue vectors) batch
      end
  end.

Definition settle_wave `{Builtins} (queue : list Item)
    (parallelBatches : list (list string)) (parallelVectors : list Settled)
    : M () :=
  forEach (settle_batch queue parallelBatches) parallelVectors.

(** ** The dispatch loop

    <<
    let i = 0;
    while (batches.length) {
      const parallelBatches = batches.splice(0, this.maximumParallelRequests);
      const parallelVectors = await Promise.allSettled(
        parallelBatches.map(strValues => this.vectorizeValues(strValues)));
      parallelVectors.forEach(...);
    }
    return true;
    >>

    [splice(0, n)] returns the first [n] batches and leaves the rest.
    [Promise.allSettled] lists the outcomes in the order of the calls,
    whatever the order in which they settle.  The loop has no bound of its
    own, so the model takes fuel, one unit per wave; [calls] counts the
    engine invocations made by earlier waves. *)

Definition splice0 {A : Type} (n : nat) (l : list A) : list A * list A :=
  (take n l, drop n l).

Definition allSettled (engine : Engine) (calls : nat)
    (parallelBatches : list (list string)) : list Settled :=
  imap (λ j strValues, engine (calls + j) strValues) parallelBatches.

Fixpoint dispatch_loop `{Builtins} (fuel : nat)
    (maximumParallelRequests : nat) (engine : Engine) (queue : list Item)
    (calls : nat) (batches : list (list string)) : M () :=
  match batches with
  | [] => mret ()
  | _ :: _ =>
      match fuel with
      | 0 => throw OutOfFuel
      | S fuel =>
          let '(parallelBatches, batches) :=
            splice0 maximumParallelRequests batches in
          let parallelVectors := allSettled engine calls parallelBatches in
          log_wave parallelBatches ≫= λ _,
          settle_wave queue parallelBatches parallelVectors ≫= λ _,
          dispatch_loop fuel maximumParallelRequests engine queue
            (calls + length parallelBatches) batches
      end
  end.

(** The state in which [batchVectorize] starts on a store [store]. *)
Definition flush_start (heap : nat) (store : gmap nat Value) : Flush :=
  {| heap_next := heap; results := store; cursor := 0;
     set_log := []; wave_log := [] |}.

Definition strValues_of `{Builtins} (queue : list Item) : list string :=
  (λ item, convertToString (item_value item)) <$> queue.

(** [batchVectorize (queue)] *)
Definition batchVectorize `{Builtins} (fuel : nat)
    (maximumBatchSize maximumParallelRequests : nat) (engine : Engine)
    (queue : list Item) : M () :=
  let strValues := strValues_of queue in
  let batches := split_batches maximumBatchSize strValues in
  dispatch_loop fuel maximumParallelRequests engine queue 0 batches.

(** ** The dispatch loop as a transition system

    The same loop, one step per point at which the code can be observed:
    the engine invocations of a wave are made together, the pending calls
    settle one at a time in any order, and the loop resumes after the
    [await] once nothing is pending.  [pending] has one entry per call of
    the wave, [None] while the call is outstanding. *)

Inductive Phase :=
| AtLoopHead (batches : list (list string)) (calls : nat)
| Awaiting (parallelBatches : list (list string))
    (pending : list (option Settled))
    (batches : list (list string)) (calls : nat)
| Returned
| Thrown (e : Abort).

Record Dispatch := { phase : Phase; flush : Flush }.

Inductive Label :=
| Invoke (parallelBatches : list (list string))
| Settle (j : nat) (result : Settled)
| Resume
| Return.

Definition log_wave_state (parallelBatches : list (list string))
    (st : Flush) : Flush :=
  {| heap_next := heap_next st; results := results st;
     cursor := cursor st; set_log := set_log st;
     wave_log := wave_log st ++ [parallelBatches] |}.

Inductive dispatch_step `{Builtins} (maximumParallelRequests : nat)
    (engine : Engine) (queue : list Item)
    : Dispatch → Label → Dispatch → Prop :=
| step_invoke b batches calls st :
    dispatch_step maximumParallelRequests engine queue
      {| phase := AtLoopHead (b :: batches) calls; flush := st |}
      (Invoke (splice0 maximumParallelRequests (b :: batches)).1)
      {| phase :=
           Awaiting (splice0 maximumParallelRequests (b :: batches)).1
             (replicate
                (length (splice0 maximumParallelRequests (b :: batches)).1)
                None)
             (splice0 maximumParallelRequests (b :: batches)).2 calls;
         flush :=
           log_wave_state
             (splice0 maximumParallelRequests (b :: batches)).1 st |}
| step_settle parallelBatches pending batches calls st j strValues :
    pending !! j = Some None →
    parallelBatches !! j = Some strValues →
    dispatch_step maximumParallelRequests engine queue
      {| phase := Awaiting parallelBatches pending batches calls;
         flush := st |}
      (Settle j (engine (calls + j) strValues))
      {| phase :=
           Awaiting parallelBatches
             (<[j := Some (engine (calls + j) strValues)]> pending)
             batches calls;
         flush := st |}
| step_resume parallelBatches parallelVectors batches calls st st' :
    settle_wave queue parallelBatches parallelVectors st = inr ((), st') →
    dispatch_step maximumParallelRequests engine queue
      {| phase :=
           Awaiting parallelBatches (Some <$> parallelVectors) batches calls;
         flush := st |}
      Resume
      {| phase := AtLoopHead batches (calls + length parallelBatches);
         flush := st' |}
| step_resume_throw parallelBatches parallelVectors batches calls st e :
    settle_wave queue parallelBatches parallelVectors st = inl e →
    dispatch_step maximumParallelRequests engine queue
      {| phase :=
           Awaiting parallelBatches (Some <$> parallelVectors) batches calls;
         flush := st |}
      Resume
      {| phase := Thrown e; flush := st |}
| step_return calls st :
    dispatch_step maximumParallelRequests engine queue
      {| phase := AtLoopHead [] calls; flush := st |}
      Return
      {| phase := Returned; flush := st |}.

(** Executions, with the labels of their steps in order. *)
Inductive dispatch_run `{Builtins} (maximumParallelRequests : nat)
    (engine : Engine) (queue : list Item)
    : Dispatch → list Label → Dispatch → Prop :=
| run_nil d :
    dispatch_run maximumParallelRequests engine queue d [] d
| run_snoc d tr d' l d'' :
    dispatch_run maximumParallelRequests engine queue d tr d' →
    dispatch_step maximumParallelRequests engine queue d' l d'' →
    dispatch_run maximumParallelRequests engine queue d (tr ++ [l]) d''.


(** Engine calls made, and calls settled, along a trace. *)
Definition invoked (tr : list Label) : nat :=
  sum_list ((λ l, match l with Invoke w => length w | _ => 0 end) <$> tr).

Definition settled (tr : list Label) : nat :=
  sum_list ((λ l, match l with Settle _ _ => 1 | _ => 0 end) <$> tr).

(** The state in which the loop is entered. *)
Definition dispatch_start (batches : list (list string)) (st : Flush)
    : Dispatch :=
  {| phase := AtLoopHead batches 0; flush := st |}.

(** ** The manager, its timers and [create] *)

Inductive Callback :=
| FastExpiry
| WaitExpiry.

(** A pending [setTimeout]: its handle, the delay it was given and what it
    runs. *)
Record Timer := {
  timer_id : nat;
  timer_delay : Z;
  timer_callback : Callback;
}.

Record Manager := {
  maximumBatchSize : nat;
  maximumParallelRequests : nat;
  fastQueueTime : Z;
  waitQueueTime : Z;
  _vectorize : option Engine;
  _queue : list Item;
  _results : gmap nat Value;
  _timeout : option nat;
  _processing : bool;
}.

(** [__initialize__ ()] *)
Definition __initialize__ : Manager :=
  {| maximumBatchSize := (7 * 1024) * 4;
     maximumParallelRequests := 10;
     fastQueueTime := 10;
     waitQueueTime := 100;
     _vectorize := None;
     _queue := [];
     _results := ∅;
     _timeout := None;
     _processing := false |}.

(** The manager together with the host's pending timers, the allocator of
    object identities and the queue snapshots handed to [batchVectorize]. *)
Record World := {
  manager : Manager;
  timers : list Timer;
  heap : nat;
  flushed : list (list Item);
}.

Definition with_manager (f : Manager → Manager) (w : World) : World :=
  {| manager := f (manager w); timers := timers w; heap := heap w;
     flushed := flushed w |}.

Definition set_queue (q : list Item) (m : Manager) : Manager :=
  {| maximumBatchSize := maximumBatchSize m;
     maximumParallelRequests := maximumParallelRequests m;
     fastQueueTime := fastQueueTime m; waitQueueTime := waitQueueTime m;
     _vectorize := _vectorize m; _queue := q; _results := _results m;
     _timeout := _timeout m; _processing := _processing m |}.

Definition set_results (r : gmap nat Value) (m : Manager) : Manager :=
  {| maximumBatchSize := maximumBatchSize m;
     maximumParallelRequests := maximumParallelRequests m;
     fastQueueTime := fastQueueTime m; waitQueueTime := waitQueueTime m;
     _vectorize := _vectorize m; _queue := _queue m; _results := r;
     _timeout := _timeout m; _processing := _processing m |}.

Definition set_timeout (t : option nat) (m : Manager) : Manager :=
  {| maximumBatchSize := maximumBatchSize m;
     maximumParallelRequests := maximumParallelRequests m;
     fastQueueTime := fastQueueTime m; waitQueueTime := waitQueueTime m;
     _vectorize := _vectorize m; _queue := _queue m; _results := _results m;
     _timeout := t; _processing := _processing m |}.

Definition set_processing (b : bool) (m : Manager) : Manager :=
  {| maximumBatchSize := maximumBatchSize m;
     maximumParallelRequests := maximumParallelRequests m;
     fastQueueTime := fastQueueTime m; waitQueueTime := waitQueueTime m;
     _vectorize := _vectorize m; _queue := _queue m; _results := _results m;
     _timeout := _timeout m; _processing := b |}.

(** [setTimeout(callback, delay)]: a new pending timer; its handle. *)
Definition setTimeout (callback : Callback) (delay : Z) (w : World)
    : nat * World :=
  (heap w,
   {| manager := manager w;
      timers := timers w ++ [{| timer_id := heap w; timer_delay := delay;
                                timer_callback := callback |}];
      heap := S (heap w);
      flushed := flushed w |}).

(** [clearTimeout(handle)]; [null] clears nothing. *)
Definition clearTimeout (handle : option nat) (w : World) : World :=
  {| manager := manager w;
     timers := filter (λ t, Some (timer_id t) ≠ handle) (timers w);
     heap := heap w;
     flushed := flushed w |}.

(** [createTimeout ()]: schedules the callback below after
    [fastQueueTime]. *)
Definition createTimeout (w : World) : World :=
  let '(handle, w) := setTimeout FastExpiry (fastQueueTime (manager w)) w in
  with_manager (set_timeout (Some handle)) w.

(** [__dequeue__ ()] up to its [await]: the queue is copied and emptied and
    the copy goes to [batchVectorize]. *)
Definition __dequeue__ (w : World) : World :=
  let w := with_manager (set_processing true) w in
  let w := clearTimeout (_timeout (manager w)) w in
  let queue := _queue (manager w) in
  let w := with_manager (set_timeout None) w in
  let w := with_manager (set_queue []) w in
  {| manager := manager w; timers := timers w; heap := heap w;
     flushed := flushed w ++ [queue] |}.

(** [__dequeue__ ()] after [batchVectorize] has returned. *)
Definition __dequeue___resumed (w : World) : World :=
  with_manager (set_processing false) w.

(** The two timer callbacks of [createTimeout]:
    <<
    () => {
      if (this._processing) {
        this.createTimeout();
      } else if (this._queue.length <= 1) {
        this.__dequeue__();
      } else {
        this._timeout = setTimeout(
          () => this.__dequeue__(),
          this.waitQueueTime - this.fastQueueTime
        );
      }
    }
    >> *)
Definition on_timer (callback : Callback) (w : World) : World :=
  match callback with
  | FastExpiry =>
      if _processing (manager w) then createTimeout w
      else if length (_queue (manager w)) <=? 1 then __dequeue__ w
      else
        let '(handle, w) :=
          setTimeout WaitExpiry
            (waitQueueTime (manager w) - fastQueueTime (manager w))%Z w in
        with_manager (set_timeout (Some handle)) w
  | WaitExpiry => __dequeue__ w
  end.

(** The host runs a pending timer: it leaves the pending list and its
    callback runs. *)
Definition expire (t : Timer) (w : World) : World :=
  on_timer (timer_callback t)
    {| manager := manager w;
       timers := filter (λ t', timer_id t' ≠ timer_id t) (timers w);
       heap := heap w;
       flushed := flushed w |}.

(** What an [async] method call comes to. *)
Inductive Completion :=
| Returns (v : Value)
| Throws (v : Value).

Definition newline : string := String (Ascii.ascii_of_nat 10) "".
Definition quote : string := String (Ascii.ascii_of_nat 34) "".

Definition no_engine_message : string :=
  "Could not vectorize: no vector engine has been set." +:+ newline
  +:+ "Use Instant.Vectors.setEngine(fn) to enable.".

Definition invalid_vector_message `{Builtins} (value : Value) : string :=
  "Could not vectorize: vector engine did not return a valid vector for input "
  +:+ quote +:+ ToString value +:+ quote.

(** [create (value)] up to its wait loop: either it throws, or the new item
    is queued and a timer is started unless one is set. *)
Definition create_enter (value : Value) (w : World)
    : (Value + Item) * World :=
  match _vectorize (manager w) with
  | None =>
      (inl (VError (heap w) no_engine_message),
       {| manager := manager w; timers := timers w; heap := S (heap w);
          flushed := flushed w |})
  | Some _ =>
      let item := {| item_id := heap w; item_value := value |} in
      let w := {| manager := set_queue (_queue (manager w) ++ [item])
                               (manager w);
                  timers := timers w; heap := S (heap w);
                  flushed := flushed w |} in
      let w := match _timeout (manager w) with
               | None => createTimeout w
               | Some _ => w
               end in
      (inr item, w)
  end.

(** [this._results.get(item)]: [undefined] for an absent key. *)
Definition results_get (store : gmap nat Value) (item : Item) : Value :=
  default VUndefined (store !! item_id item).

(** One test of [while (!(result = this._results.get(item)))]: the value
    that ends the wait, or [None] when the caller sleeps and asks again. *)
Definition create_poll (store : gmap nat Value) (item : Item)
    : option Value :=
  let result := results_get store item in
  if truthy result then Some result else None.

(** [create (value)] after its wait loop. *)
Definition create_leave `{Builtins} (value : Value) (item : Item)
    (result : Value) (w : World) : Completion * World :=
  let w := with_manager
             (λ m, set_results (delete (item_id item) (_results m)) m) w in
  if instanceof_Error result then (Throws result, w)
  else if negb (isArray result) then
    (Throws (VError (heap w) (invalid_vector_message value)),
     {| manager := manager w; timers := timers w; heap := S (heap w);
        flushed := flushed w |})
  else (Returns result, w).

(** The argument of [setEngine], as far as the method inspects it. *)
Inductive EngineArgument :=
| NotAFunction (v : Value)
| PlainFunction
| AsyncFunction (engine : Engine).

(** [setEngine (fnVectorize)] *)
Definition setEngine (fnVectorize : EngineArgument) (m : Manager)
    : string + Manager :=
  match fnVectorize with
  | NotAFunction _ => inl ".setEngine(fn) expects a valid function"
  | PlainFunction => inl ".setEngine(fn) expects an Asynchronous function"
  | AsyncFunction engine =>
      inr {| maximumBatchSize := maximumBatchSize m;
             maximumParallelRequests := maximumParallelRequests m;
             fastQueueTime := fastQueueTime m;
             waitQueueTime := waitQueueTime m;
             _vectorize := Some engine; _queue := _queue m;
             _results := _results m; _timeout := _timeout m;
             _processing := _processing m |}
  end.

(** A flush of the manager: [batchVectorize] run on a snapshot with the
    manager's two sizes and its engine. *)
Definition flush_of `{Builtins} (fuel : nat) (m : Manager) (engine : Engine)
    (queue : list Item) : M () :=
  batchVectorize fuel (maximumBatchSize m) (maximumParallelRequests m)
    engine queue.

(** ** What a request is owed

    The outcome the engine produced for position [k] of a batch, and the
    value that stands for it in [_results]. *)

Definition vectors_of (value : Value) : list Value :=
  match value with VArray elems => elems | _ => [] end.

Definition entry_at (value : Value) (k : nat) : Value :=
  default VUndefined (vectors_of value !! k).

Inductive delivered `{Builtins} : Settled → nat → Value → Prop :=
| delivered_error reason k :
    instanceof_Error reason = true →
    delivered (Rejected reason) k reason
| delivered_wrapped reason k id :
    instanceof_Error reason = false →
    delivered (Rejected reason) k (VError id (Error_message reason))
| delivered_vector value k :
    truthy (entry_at value k) = true →
    delivered (Fulfilled value) k (entry_at value k)
| delivered_malformed value k :
    truthy (entry_at value k) = false →
    delivered (Fulfilled value) k minus_one.

(** The flattened positions of a list of batches, each with the outcome of
    its batch: [base + j] is the invocation that carried batch [j]. *)
Definition slots (engine : Engine) (base : nat) (batches : list (list string))
    : list (Settled * nat) :=
  mjoin (imap (λ j batch,
                 (λ k, (engine (base + j) batch, k)) <$> seq 0 (length batch))
              batches).


(** [st'] is [st] after the writes [L], made in this order. *)
Definition store_writes (store : gmap nat Value) (L : list (nat * Value))
    : gmap nat Value :=
  foldl (λ m w, <[w.1 := w.2]> m) store L.

Record advance (st st' : Flush) (L : list (nat * Value))
    (W : list (list (list string))) : Prop := {
  adv_log : set_log st' = set_log st ++ L;
  adv_cursor : cursor st' = cursor st + length L;
  adv_results : results st' = store_writes (results st) L;
  adv_waves : wave_log st' = wave_log st ++ W;
  adv_heap : heap_next st ≤ heap_next st';
}.

(** A write [w] carries what slot [s] is owed. *)
Definition owed `{Builtins} (s : Settled * nat) (w : nat * Value) : Prop :=
  delivered s.1 s.2 w.2.

(** [ceil (n / m)] *)
Definition div_ceil (n m : nat) : nat := (n + m - 1) / m.


(** What the loop maintains: [batches] ends with the batch being filled,
    whose characters [curBatchSize] counts; the batches flatten to the
    strings consumed so far; every batch is within the budget. *)
Record split_inv (m : nat) (consumed : list string)
    (st : list (list string) * nat) : Prop := {
  inv_last : ∃ closed cur, st.1 = closed ++ [cur] ∧ st.2 = total_length cur;
  inv_flat : mjoin st.1 = consumed;
  inv_bound : Forall (λ b, total_length b ≤ m) st.1;
}.

(** ** Invariants of the transition system *)

(** What holds of the dispatch after the trace [tr], from the batches
    [all]: the waves are consecutive chunks, and the pending list accounts
    for every call made and not yet settled. *)
Definition dispatch_inv (n : nat) (engine : Engine)
    (all : list (list string)) (tr : list Label) (d : Dispatch) : Prop :=
  match phase d with
  | AtLoopHead batches calls =>
      calls = invoked tr ∧ batches = drop calls all
      ∧ settled tr = invoked tr
  | Awaiting parallelBatches pending batches calls =>
      parallelBatches = take n (drop calls all)
      ∧ batches = drop n (drop calls all)
      ∧ invoked tr = calls + length parallelBatches
      ∧ length pending = length parallelBatches
      ∧ settled tr + length (filter (λ o, o = None) pending) = invoked tr
      ∧ ∀ j r, pending !! j = Some (Some r) →
          ∃ strValues, parallelBatches !! j = Some strValues
                       ∧ r = engine (calls + j) strValues
  | Returned | Thrown _ => settled tr = invoked tr
  end.

(** Every wave in the trace starts when all earlier calls have settled and
    takes the next [n] batches. *)
Definition well_timed (n : nat) (all : list (list string))
    (tr : list Label) : Prop :=
  ∀ tr1 wave tr2, tr = tr1 ++ Invoke wave :: tr2 →
    settled tr1 = invoked tr1
    ∧ wave = take n (drop (invoked tr1) all)
    ∧ length wave ≤ n.

(** Every value written so far stands for an outcome, and the store holds
    truthy values only. *)
Definition store_truthy `{Builtins} (st : Flush) : Prop :=
  Forall (λ w, ∃ result k, delivered result k w.2) (set_log st)
  ∧ ∀ id v, results st !! id = Some v → truthy v = true.

(** What remains to be computed from a state of the transition system, in
    terms of the loop with fuel. *)
Definition remaining `{Builtins} (n : nat) (engine : Engine)
    (queue : list Item) (fuel : nat) (d : Dispatch) : Abort + () * Flush :=
  match phase d with
  | AtLoopHead batches calls =>
      dispatch_loop fuel n engine queue calls batches (flush d)
  | Awaiting parallelBatches _ batches calls =>
      (settle_wave queue parallelBatches
         (allSettled engine calls parallelBatches) ≫= λ _,
       dispatch_loop fuel n engine queue
         (calls + length parallelBatches) batches) (flush d)
  | Returned => inr ((), flush d)
  | Thrown e => inl e
  end.

(** Queued items are distinct objects: each was allocated by its own
    [create] call.  The same holds of every snapshot handed to a flush. *)
Definition world_fresh (w : World) : Prop :=
  NoDup (item_id <$> _queue (manager w))
  ∧ (∀ item, item ∈ _queue (manager w) → item_id item < heap w)
  ∧ Forall (λ queue, NoDup (item_id <$> queue)) (flushed w).

(** ** Sample data

    A stand-in for the two built-ins (integers print as in JavaScript) and
    a small flush, used to evaluate the model on concrete inputs. *)

Definition sample_builtins : Builtins :=
  {| Number_toString := λ n,
       match n with
       | NaN => "NaN"
       | Infinity negative => if negative then "-Infinity" else "Infinity"
       | Finite q =>
           if Pos.eqb (Qden q) 1 then pretty (Qnum q)
           else pretty (Qnum q) +:+ "/" +:+ pretty (Z.pos (Qden q))
       end;
     JSON_stringify := λ v,
       match v with VArray _ => "[]" | _ => "{}" end |}.

Definition item_of (id : nat) (s : string) : Item :=
  {| item_id := id; item_value := VStr s |}.

(** Five requests of two characters each. *)
Definition sample_queue : list Item :=
  [item_of 0 "aa"; item_of 1 "bb"; item_of 2 "cc"; item_of 3 "dd";
   item_of 4 "ee"].

Definition sample_vector (s : string) : Value :=
  VArray [VNum (Finite (1 # 10)); VNum (Finite (Z.of_nat (String.length s) # 1))].

(** The first invocation answers with one vector per string, the second
    rejects with an [Error], later ones answer with [undefined]. *)
Definition sample_engine : Engine := λ n strValues,
  match n with
  | 0 => Fulfilled (VArray (sample_vector <$> strValues))
  | 1 => Rejected (VError 100 "Not good!")
  | _ => Fulfilled VUndefined
  end.



Definition sample_world (m : Manager) : World :=
  {| manager := m; timers := []; heap := 0; flushed := [] |}.

(** The batches of the sample queue under a budget of four characters,
    and an execution of their dispatch, two calls at a time, in which the
    second call of the first wave settles before the first. *)
Definition sample_batches : list (list string) :=
  [["aa"; "bb"]; ["cc"; "dd"]; ["ee"]].

Definition sample_trace : list Label :=
  [Invoke [["aa"; "bb"]; ["cc"; "dd"]];
   Settle 1 (sample_engine (0 + 1) ["cc"; "dd"]);
   Settle 0 (sample_engine (0 + 0) ["aa"; "bb"]);
   Resume;
   Invoke [["ee"]];
   Settle 0 (sample_engine (2 + 0) ["ee"]);
   Resume;
   Return].

Definition sample_final : Dispatch :=
  {| phase := Returned;
     flush :=
       {| heap_next := 5;
          results :=
            <[4 := minus_one]>
              (<[3 := VError 100 "Not good!"]>
                 (<[2 := VError 100 "Not good!"]>
                    (<[1 := sample_vector "bb"]>
                       (<[0 := sample_vector "aa"]> ∅))));
          cursor := 5;
          set_log :=
            [(0, sample_vector "aa"); (1, sample_vector "bb");
             (2, VError 100 "Not good!"); (3, VError 100 "Not good!");
             (4, minus_one)];
          wave_log := [[["aa"; "bb"]; ["cc"; "dd"]]; [["ee"]]] |} |}.

(** ** [batchCreate] and the life of a manager *)

(** [batchCreate (values)] up to the first [await]:
    [values.map(value => this.create(value))] runs every [create] up to its
    wait loop, in the order of [values]. *)
Definition create_all (acc : list (Value + Item) * World)
    (values : list Value) : list (Value + Item) * World :=
  foldl (λ acc value,
           let '(r, w') := create_enter value acc.2 in (acc.1 ++ [r], w'))
        acc values.

Definition batchCreate_enter (values : list Value) (w : World)
    : list (Value + Item) * World :=
  create_all ([], w) values.

(** [new VectorManager()] in a host with no pending timer. *)
Definition new_VectorManager : World :=
  {| manager := __initialize__; timers := []; heap := 0; flushed := [] |}.

(** What can happen to a manager between two turns of the event loop: a
    [create] call runs up to its wait loop, a pending timer expires, a
    flush writes an outcome or allocates an [Error], [__dequeue__] resumes
    after its flush, a [create] call leaves its wait loop, or [setEngine]
    succeeds. *)
Inductive world_step `{Builtins} : World → World → Prop :=
| world_create value w :
    world_step w (create_enter value w).2
| world_expire t w :
    t ∈ timers w →
    world_step w (expire t w)
| world_results_set item v w :
    world_step w
      (with_manager
         (λ m, set_results (<[item_id item := v]> (_results m)) m) w)
| world_new_Error w :
    world_step w
      {| manager := manager w; timers := timers w; heap := S (heap w);
         flushed := flushed w |}
| world_resumed w :
    world_step w (__dequeue___resumed w)
| world_leave value item result w :
    world_step w (create_leave value item result w).2
| world_setEngine fnVectorize m' w :
    setEngine fnVectorize (manager w) = inr m' →
    world_step w (with_manager (λ _, m') w).

(** At most one timer is pending, and [_timeout] is its handle. *)
Definition timer_inv (w : World) : Prop :=
  match _timeout (manager w) with
  | None => timers w = []
  | Some handle => ∃ t, timers w = [t] ∧ timer_id t = handle
  end.

(** Every request accepted so far, in the order of acceptance: those
    handed to a flush, then those still queued. *)
Definition accepted (w : World) : list Item :=
  mjoin (flushed w) ++ _queue (manager w).

(** A manager at rest: an engine is set, nothing is queued, no timer is
    pending and no flush is in progress. *)
Definition at_rest (w : World) : Prop :=
  is_Some (_vectorize (manager w))
  ∧ _queue (manager w) = []
  ∧ _timeout (manager w) = None
  ∧ timers w = []
  ∧ _processing (manager w) = false.

(** ** Shape of the batches

    Beyond the first iteration no batch is empty, and a batch is closed
    only because the next string did not fit. *)
Definition greedy (m : nat) (batches : list (list string)) : Prop :=
  ∀ pre b b' post, batches = pre ++ b :: b' :: post →
    ∃ s rest, b' = s :: rest ∧ m < total_length b + String.length s.

Definition split_shape (m : nat) (st : list (list string) * nat) : Prop :=
  st = ([[]], 0)
  ∨ ∃ closed cur,
      st.1 = closed ++ [cur] ∧ st.2 = total_length cur
      ∧ Forall (λ b, b ≠ []) st.1
      ∧ greedy m st.1.

(** A manager with the sample engine set, at rest. *)
Definition sample_manager : Manager :=
  {| maximumBatchSize := 4; maximumParallelRequests := 2;
     fastQueueTime := 10; waitQueueTime := 100;
     _vectorize := Some sample_engine; _queue := []; _results := ∅;
     _timeout := None; _processing := false |}.

(** The same dispatch as [sample_trace], with the calls of the first wave
    settling in the order in which they were made. *)
Definition sample_trace_in_order : list Label :=
  [Invoke [["aa"; "bb"]; ["cc"; "dd"]];
   Settle 0 (sample_engine (0 + 0) ["aa"; "bb"]);
   Settle 1 (sample_engine (0 + 1) ["cc"; "dd"]);
   Resume;
   Invoke [["ee"]];
   Settle 0 (sample_engine (2 + 0) ["ee"]);
   Resume;
   Return].

(** No two accepted requests share an identity, and the allocator is past
    all of them. *)
Definition accepted_fresh (w : World) : Prop :=
  NoDup (item_id <$> accepted w)
  ∧ ∀ item, item ∈ accepted w → item_id item < heap w.

(** At most one timer is pending; while one is, the queue is not empty;
    no flush was handed an empty queue. *)
Definition debounce_inv (w : World) : Prop :=
  timer_inv w
  ∧ (timers w ≠ [] → _queue (manager w) ≠ [])
  ∧ Forall (λ queue, queue ≠ []) (flushed w).

(** The sample manager at rest, and the two timers of a burst of two
    requests on it. *)
Definition sample_rest : World := sample_world sample_manager.

Definition sample_fast_timer : Timer :=
  {| timer_id := 1; timer_delay := 10; timer_callback := FastExpiry |}.

Definition sample_wait_timer : Timer :=
  {| timer_id := 3; timer_delay := 90; timer_callback := WaitExpiry |}.

Definition sample_burst : World :=
  expire sample_wait_timer
    (expire sample_fast_timer
       (batchCreate_enter [VStr "aa"; VStr "bb"] sample_rest).2).


(** * Properties of the batching step *)

Section Batcher.

Lemma slice0_length (n : nat) (s : string) :
  String.length (slice0 n s) = n `min` String.length s.
Proof.
  unfold slice0. revert s.
  induction n as [|n IH]; intros [|c s]; simpl; try reflexivity.
  by rewrite IH.
Qed.

Lemma slice0_length_le (n : nat) (s : string) :
  String.length (slice0 n s) ≤ n.
Proof. rewrite slice0_length. lia. Qed.

Lemma total_length_app (b1 b2 : list string) :
  total_length (b1 ++ b2) = total_length b1 + total_length b2.
Proof. unfold total_length. by rewrite fmap_app, sum_list_with_app. Qed.

Lemma total_length_singleton (s : string) :
  total_length [s] = String.length s.
Proof. unfold total_length. simpl. lia. Qed.

Lemma split_inv_init (m : nat) : split_inv m [] ([[]], 0).
Proof.
  split; simpl.
  - by exists [], [].
  - done.
  - repeat constructor. unfold total_length. simpl. lia.
Qed.

Lemma split_inv_step (m : nat) consumed st raw :
  split_inv m consumed st →
  split_inv m (consumed ++ [slice0 m raw]) (split_step m st raw).
Proof.
  intros [(closed & cur & Hb & Hc) Hflat Hbound].
  destruct st as [batches curBatchSize]. simpl in *. subst.
  pose proof (slice0_length_le m raw) as Hle.
  unfold split_step.
  destruct (Nat.ltb_spec m (total_length cur + String.length (slice0 m raw)))
    as [Hgt|Hfit].
  - split; simpl.
    + by exists (closed ++ [cur]), [slice0 m raw];
        rewrite total_length_singleton.
    + by rewrite join_app.
    + apply Forall_app. split; [done|].
      repeat constructor. by rewrite total_length_singleton.
  - rewrite length_app. simpl.
    replace (length closed + 1 - 1) with (length closed + 0) by lia.
    rewrite alter_app_r. simpl.
    split; simpl.
    + exists closed, (cur ++ [slice0 m raw]). split; [done|].
      by rewrite total_length_app, total_length_singleton.
    + rewrite !join_app. simpl. by rewrite ?app_nil_r, app_assoc.
    + apply Forall_app in Hbound as [Hclosed _].
      apply Forall_app. split; [done|].
      repeat constructor.
      by rewrite total_length_app, total_length_singleton.
Qed.

Lemma split_inv_foldl (m : nat) strValues consumed st :
  split_inv m consumed st →
  split_inv m (consumed ++ (slice0 m <$> strValues))
    (foldl (split_step m) st strValues).
Proof.
  revert consumed st.
  induction strValues as [|raw strValues IH]; intros consumed st Hinv.
  - by rewrite app_nil_r.
  - rewrite fmap_cons, cons_middle, app_assoc.
    apply (IH _ (split_step m st raw)). by apply split_inv_step.
Qed.

Lemma split_batches_inv (m : nat) strValues :
  split_inv m (slice0 m <$> strValues)
    (foldl (split_step m) ([[]], 0) strValues).
Proof. apply (split_inv_foldl m strValues [] _ (split_inv_init m)). Qed.

Lemma split_batches_flatten (m : nat) strValues :
  mjoin (split_batches m strValues) = slice0 m <$> strValues.
Proof. apply (inv_flat _ _ _ (split_batches_inv m strValues)). Qed.

Lemma split_batches_bound (m : nat) strValues :
  Forall (λ b, total_length b ≤ m) (split_batches m strValues).
Proof. apply (inv_bound _ _ _ (split_batches_inv m strValues)). Qed.

Lemma split_batches_nonempty (m : nat) strValues :
  split_batches m strValues ≠ [].
Proof.
  destruct (inv_last _ _ _ (split_batches_inv m strValues))
    as (closed & cur & Hb & _).
  unfold split_batches. rewrite Hb. by destruct closed.
Qed.

End Batcher.

(** * Properties of the outcome distribution *)

Section Distribution.

Context `{Builtins}.
Variable queue : list Item.

Lemma advance_refl (st : Flush) : advance st st [] [].
Proof. split; simpl; rewrite ?app_nil_r; auto with lia. Qed.

Lemma advance_trans (st1 st2 st3 : Flush) L1 L2 W1 W2 :
  advance st1 st2 L1 W1 → advance st2 st3 L2 W2 →
  advance st1 st3 (L1 ++ L2) (W1 ++ W2).
Proof.
  intros [Hl1 Hc1 Hr1 Hw1 Hh1] [Hl2 Hc2 Hr2 Hw2 Hh2]. split.
  - by rewrite Hl2, Hl1, app_assoc.
  - rewrite Hc2, Hc1, length_app. lia.
  - unfold store_writes in *. by rewrite Hr2, Hr1, foldl_app.
  - by rewrite Hw2, Hw1, app_assoc.
  - lia.
Qed.

#[local] Ltac advance_step :=
  split; simpl; rewrite ?app_nil_r; auto with lia.

Lemma set_rejected_spec reason str k st item :
  queue !! cursor st = Some item →
  ∃ st' v, set_rejected queue reason str k st = inr ((), st')
    ∧ advance st st' [(item_id item, v)] []
    ∧ delivered (Rejected reason) k v.
Proof.
  intros Hitem. unfold set_rejected.
  destruct (instanceof_Error reason) eqn:Herr.
  - eexists _, reason. split; [|split].
    + unfold mbind, M_bind, mret, M_ret, queue_next. simpl.
      rewrite Hitem. reflexivity.
    + advance_step.
    + by constructor.
  - eexists _, (VError (heap_next st) (Error_message reason)).
    split; [|split].
    + unfold mbind, M_bind, new_Error, queue_next. simpl.
      rewrite Hitem. reflexivity.
    + advance_step.
    + by constructor.
Qed.

Lemma set_fulfilled_spec value str k st item :
  queue !! cursor st = Some item →
  ∃ st' v, set_fulfilled queue (vectors_of value) str k st = inr ((), st')
    ∧ advance st st' [(item_id item, v)] []
    ∧ delivered (Fulfilled value) k v.
Proof.
  intros Hitem. unfold set_fulfilled.
  fold (entry_at value k).
  destruct (truthy (entry_at value k)) eqn:Htruthy.
  - eexists _, (entry_at value k). split; [|split].
    + unfold mbind, M_bind, queue_next. simpl. rewrite Hitem. reflexivity.
    + advance_step.
    + by constructor.
  - eexists _, minus_one. split; [|split].
    + unfold mbind, M_bind, queue_next. simpl. rewrite Hitem. reflexivity.
    + advance_step.
    + by constructor.
Qed.

(** A [forEach] over a batch hands one value to each of the next
    [length batch] items of the queue. *)
Lemma forEach_batch_spec (f : string → nat → M ()) (result : Settled) :
  (∀ str k st item, queue !! cursor st = Some item →
     ∃ st' v, f str k st = inr ((), st')
       ∧ advance st st' [(item_id item, v)] [] ∧ delivered result k v) →
  ∀ batch from st,
    cursor st + length batch ≤ length queue →
    ∃ st' L, forEach_from from f batch st = inr ((), st')
      ∧ advance st st' L []
      ∧ L.*1 = item_id <$> take (length batch) (drop (cursor st) queue)
      ∧ Forall2 (λ k w, delivered result k w.2) (seq from (length batch)) L.
Proof.
  intros Hf. induction batch as [|str batch IH]; intros from st Hlen.
  - exists st, []. simpl. split; [done|]. split; [apply advance_refl|].
    split; [done|constructor].
  - simpl in Hlen.
    destruct (lookup_lt_is_Some_2 queue (cursor st)) as [item Hitem]; [lia|].
    destruct (Hf str from st item Hitem) as (st1 & v & Hrun & Hadv & Hdel).
    destruct (IH (S from) st1) as (st' & L & Hrun' & Hadv' & Hids & Hall).
    { rewrite (adv_cursor _ _ _ _ Hadv). simpl. lia. }
    exists st', ((item_id item, v) :: L). split; [|split; [|split]].
    + simpl. unfold mbind, M_bind. by rewrite Hrun.
    + apply (advance_trans _ _ _ [_] L [] [] Hadv Hadv').
    + rewrite fmap_cons, Hids, (adv_cursor _ _ _ _ Hadv). cbn [length fst].
      rewrite (drop_S _ _ _ Hitem), firstn_cons, fmap_cons.
      by replace (cursor st + 1) with (S (cursor st)) by lia.
    + simpl. by constructor.
Qed.

Lemma settle_batch_spec parallelBatches result j batch st :
  parallelBatches !! j = Some batch →
  cursor st + length batch ≤ length queue →
  ∃ st' L, settle_batch queue parallelBatches result j st = inr ((), st')
    ∧ advance st st' L []
    ∧ L.*1 = item_id <$> take (length batch) (drop (cursor st) queue)
    ∧ Forall2 owed ((λ k, (result, k)) <$> seq 0 (length batch)) L.
Proof.
  intros Hj Hlen. unfold settle_batch. rewrite Hj.
  destruct result as [value|reason].
  - destruct (forEach_batch_spec (set_fulfilled queue (vectors_of value))
                (Fulfilled value)) with (batch := batch) (from := 0) (st := st)
      as (st' & L & Hrun & Hadv & Hids & Hall); [|done|].
    { intros. by apply set_fulfilled_spec. }
    exists st', L. split; [done|]. split; [done|]. split; [done|].
    apply Forall2_fmap_l. by eapply Forall2_impl; [exact Hall|].
  - destruct (forEach_batch_spec (set_rejected queue reason)
                (Rejected reason)) with (batch := batch) (from := 0) (st := st)
      as (st' & L & Hrun & Hadv & Hids & Hall); [|done|].
    { intros. by apply set_rejected_spec. }
    exists st', L. split; [done|]. split; [done|]. split; [done|].
    apply Forall2_fmap_l. by eapply Forall2_impl; [exact Hall|].
Qed.

Lemma slots_nil engine base : slots engine base [] = [].
Proof. reflexivity. Qed.

Lemma slots_cons engine base batch batches :
  slots engine base (batch :: batches)
  = ((λ k, (engine base batch, k)) <$> seq 0 (length batch))
      ++ slots engine (S base) batches.
Proof.
  unfold slots. simpl. rewrite Nat.add_0_r. f_equal. f_equal.
  apply imap_ext. intros j b _. simpl.
  by replace (base + S j) with (S (base + j)) by lia.
Qed.

Lemma slots_app engine base batches1 batches2 :
  slots engine base (batches1 ++ batches2)
  = slots engine base batches1
      ++ slots engine (base + length batches1) batches2.
Proof.
  revert base. induction batches1 as [|b batches1 IH]; intros base.
  - simpl. by rewrite Nat.add_0_r.
  - simpl. rewrite !slots_cons, IH, app_assoc.
    by replace (S base + length batches1) with (base + S (length batches1))
      by lia.
Qed.

Lemma slots_length engine base batches :
  length (slots engine base batches) = length (mjoin batches).
Proof.
  revert base. induction batches as [|b batches IH]; intros base; [done|].
  rewrite slots_cons. simpl.
  by rewrite !length_app, length_fmap, length_seq, IH.
Qed.

Lemma take_drop_split {A : Type} (l : list A) (c a b : nat) :
  take (a + b) (drop c l) = take a (drop c l) ++ take b (drop (c + a) l).
Proof. by rewrite <- drop_drop, take_take_drop. Qed.

Lemma settle_wave_from engine calls parallelBatches :
  ∀ rest done st,
    parallelBatches = done ++ rest →
    cursor st + length (mjoin rest) ≤ length queue →
    ∃ st' L,
      forEach_from (length done) (settle_batch queue parallelBatches)
        (imap (λ j b, engine (calls + length done + j) b) rest) st
      = inr ((), st')
      ∧ advance st st' L []
      ∧ L.*1 = item_id <$> take (length (mjoin rest)) (drop (cursor st) queue)
      ∧ Forall2 owed (slots engine (calls + length done) rest) L.
Proof.
  induction rest as [|batch rest IH]; intros done st Hpb Hlen.
  - exists st, []. split; [done|]. split; [apply advance_refl|].
    split; [done|constructor].
  - simpl in Hlen. rewrite length_app in Hlen.
    destruct (settle_batch_spec parallelBatches
                (engine (calls + length done + 0) batch) (length done)
                batch st) as (st1 & L1 & Hrun1 & Hadv1 & Hids1 & Hall1).
    { subst. by apply list_lookup_middle. }
    { lia. }
    assert (length L1 = length batch) as HL1.
    { apply Forall2_length in Hall1.
      by rewrite length_fmap, length_seq in Hall1. }
    destruct (IH (done ++ [batch]) st1) as (st' & L2 & Hrun2 & Hadv2 & Hids2 & Hall2).
    { subst. by rewrite <- app_assoc. }
    { rewrite (adv_cursor _ _ _ _ Hadv1). lia. }
    exists st', (L1 ++ L2). split; [|split; [|split]].
    + cbn [imap forEach_from]. unfold mbind at 1, M_bind at 1.
      rewrite Hrun1.
      rewrite length_app in Hrun2. simpl in Hrun2.
      replace (length done + 1) with (S (length done)) in Hrun2 by lia.
      erewrite imap_ext; [exact Hrun2|].
      intros j b _. simpl. f_equal. lia.
    + apply (advance_trans _ _ _ L1 L2 [] [] Hadv1 Hadv2).
    + rewrite fmap_app, Hids1, Hids2, (adv_cursor _ _ _ _ Hadv1), HL1.
      simpl. rewrite length_app, take_drop_split. by rewrite fmap_app.
    + rewrite slots_cons. apply Forall2_app.
      * by rewrite Nat.add_0_r in Hall1.
      * rewrite length_app in Hall2. simpl in Hall2.
        by replace (S (calls + length done))
          with (calls + (length done + 1)) by lia.
Qed.

Lemma settle_wave_spec engine calls parallelBatches st :
  cursor st + length (mjoin parallelBatches) ≤ length queue →
  ∃ st' L,
    settle_wave queue parallelBatches
      (allSettled engine calls parallelBatches) st = inr ((), st')
    ∧ advance st st' L []
    ∧ L.*1 = item_id <$> take (length (mjoin parallelBatches))
                           (drop (cursor st) queue)
    ∧ Forall2 owed (slots engine calls parallelBatches) L.
Proof.
  intros Hlen.
  destruct (settle_wave_from engine calls parallelBatches parallelBatches
              [] st eq_refl Hlen) as (st' & L & Hrun & Hadv & Hids & Hall).
  simpl in *. rewrite Nat.add_0_r in Hall.
  exists st', L. split; [|done].
  unfold settle_wave, forEach, allSettled. rewrite <- Hrun.
  f_equal. apply imap_ext. intros j b _. simpl. f_equal. lia.
Qed.

Lemma div_ceil_0 (m : nat) : 1 ≤ m → div_ceil 0 m = 0.
Proof. intros Hm. unfold div_ceil. apply Nat.div_small. lia. Qed.

Lemma div_ceil_step (n m : nat) :
  0 < n → 1 ≤ m → div_ceil n m = S (div_ceil (n - m) m).
Proof.
  intros Hn Hm. unfold div_ceil.
  destruct (decide (n ≤ m)) as [Hle|Hgt].
  - replace (n - m) with 0 by lia.
    rewrite (Nat.div_small (0 + m - 1) m) by lia.
    symmetry. apply (Nat.div_unique _ _ 1 (n - 1)); lia.
  - replace (n + m - 1) with ((n - m + m - 1) + 1 * m) by lia.
    rewrite Nat.div_add by lia. lia.
Qed.

Lemma log_wave_advance parallelBatches st :
  ∃ st', log_wave parallelBatches st = inr ((), st')
    ∧ advance st st' [] [parallelBatches].
Proof. eexists. split; [reflexivity|]. advance_step. Qed.

(** With a positive ceiling and one unit of fuel per wave the loop returns:
    every position receives what it is owed, and the waves are the
    consecutive chunks of [maximumParallelRequests] batches. *)
Lemma dispatch_loop_spec engine maximumParallelRequests :
  1 ≤ maximumParallelRequests →
  ∀ fuel calls batches st,
    div_ceil (length batches) maximumParallelRequests ≤ fuel →
    cursor st + length (mjoin batches) ≤ length queue →
    ∃ st' L W,
      dispatch_loop fuel maximumParallelRequests engine queue calls batches st
      = inr ((), st')
      ∧ advance st st' L W
      ∧ L.*1 = item_id <$> take (length (mjoin batches))
                             (drop (cursor st) queue)
      ∧ Forall2 owed (slots engine calls batches) L
      ∧ length W = div_ceil (length batches) maximumParallelRequests
      ∧ ∀ w, w < length W →
          W !! w = Some (take maximumParallelRequests
                           (drop (w * maximumParallelRequests) batches)).
Proof.
  intros Hpos. set (n := maximumParallelRequests) in *.
  induction fuel as [|fuel IH]; intros calls batches st Hfuel Hlen.
  - destruct batches as [|b batches].
    + exists st, [], []. split; [done|]. split; [apply advance_refl|].
      split; [done|]. split; [constructor|].
      split; [by rewrite div_ceil_0|simpl; lia].
    + rewrite div_ceil_step in Hfuel by (simpl; lia). lia.
  - destruct batches as [|b batches].
    + exists st, [], []. split; [done|]. split; [apply advance_refl|].
      split; [done|]. split; [constructor|].
      split; [by rewrite div_ceil_0|simpl; lia].
    + remember (b :: batches) as bs eqn:Hbs.
      assert (0 < length bs) as Hne by (subst; simpl; lia).
      rewrite (div_ceil_step (length bs)) in * by done.
      pose proof (take_drop n bs) as Hsplit.
      destruct (log_wave_advance (take n bs) st) as (st0 & Hrun0 & Hadv0).
      assert (cursor st0 = cursor st) as Hc0.
      { rewrite (adv_cursor _ _ _ _ Hadv0). simpl. lia. }
      assert (length (mjoin bs)
              = length (mjoin (take n bs)) + length (mjoin (drop n bs)))
        as Hjoin.
      { by rewrite <- length_app, <- join_app, Hsplit. }
      destruct (settle_wave_spec engine calls (take n bs) st0)
        as (st1 & L1 & Hrun1 & Hadv1 & Hids1 & Hall1); [lia|].
      assert (length L1 = length (mjoin (take n bs))) as HL1.
      { apply Forall2_length in Hall1. by rewrite slots_length in Hall1. }
      destruct (IH (calls + length (take n bs)) (drop n bs) st1)
        as (st' & L2 & W2 & Hrun2 & Hadv2 & Hids2 & Hall2 & HW2 & Hwaves).
      { rewrite length_drop. lia. }
      { rewrite (adv_cursor _ _ _ _ Hadv1). lia. }
      exists st', (L1 ++ L2), (take n bs :: W2).
      split; [|split; [|split; [|split; [|split]]]].
      * rewrite Hbs at 1. cbn [dispatch_loop]. rewrite <- Hbs.
        unfold splice0. unfold mbind, M_bind.
        by rewrite Hrun0, Hrun1.
      * pose proof (advance_trans _ _ _ _ _ _ _ Hadv0
                      (advance_trans _ _ _ _ _ _ _ Hadv1 Hadv2)) as Hadv.
        by simpl in Hadv.
      * rewrite fmap_app, Hids1, Hids2, (adv_cursor _ _ _ _ Hadv1), HL1, Hc0.
        rewrite Hjoin, take_drop_split. by rewrite fmap_app.
      * rewrite <- Hsplit at 1. rewrite slots_app. by apply Forall2_app.
      * simpl. by rewrite HW2, length_drop.
      * intros [|w] Hw; simpl.
        { done. }
        rewrite Hwaves by (simpl in Hw; lia).
        by rewrite drop_drop.
Qed.

End Distribution.

(** * Positions, slots and the store *)

Section Positions.

Context `{Builtins}.







Lemma delivered_truthy result k v : delivered result k v → truthy v = true.
Proof.
  destruct 1 as [reason k Herr| | |]; try done.
  by destruct reason.
Qed.

Lemma strValues_flatten m (queue : list Item) :
  mjoin (split_batches m (strValues_of queue))
  = (λ item, slice0 m (convertToString (item_value item))) <$> queue.
Proof.
  rewrite split_batches_flatten. unfold strValues_of.
  by rewrite <- list_fmap_compose.
Qed.

End Positions.

(** * The whole of [batchVectorize] *)

Section Flush.

Context `{Builtins}.

Lemma div_ceil_lt (m : nat) : 1 ≤ m → ∀ w n, w < div_ceil n m → w * m < n.
Proof.
  intros Hm. induction w as [|w IH]; intros n Hw.
  - destruct n; [rewrite div_ceil_0 in Hw by done|]; lia.
  - destruct (decide (n = 0)) as [->|Hn].
    + rewrite div_ceil_0 in Hw by done. lia.
    + rewrite div_ceil_step in Hw by lia.
      assert (w * m < n - m) by (apply IH; lia). simpl. lia.
Qed.

Lemma div_ceil_le (n m : nat) : 1 ≤ m → div_ceil n m ≤ n.
Proof.
  intros Hm. induction n as [n IH] using lt_wf_ind.
  destruct (decide (n = 0)) as [->|Hn].
  - by rewrite div_ceil_0.
  - rewrite div_ceil_step by lia.
    assert (div_ceil (n - m) m ≤ n - m) by (apply IH; lia). lia.
Qed.

(** From a fresh cursor, with a positive ceiling and enough fuel,
    [batchVectorize] returns; its writes go to the queue's items in queue
    order, one each, and carry what the flattened positions are owed. *)
Lemma batchVectorize_spec fuel m n engine (queue : list Item) heap store :
  1 ≤ n →
  div_ceil (length (split_batches m (strValues_of queue))) n ≤ fuel →
  ∃ st',
    batchVectorize fuel m n engine queue (flush_start heap store)
    = inr ((), st')
    ∧ (set_log st').*1 = item_id <$> queue
    ∧ Forall2 owed
        (slots engine 0 (split_batches m (strValues_of queue))) (set_log st')
    ∧ results st' = store_writes store (set_log st')
    ∧ length (wave_log st')
      = div_ceil (length (split_batches m (strValues_of queue))) n
    ∧ ∀ w, w < length (wave_log st') →
        wave_log st' !! w
        = Some (take n (drop (w * n) (split_batches m (strValues_of queue)))).
Proof.
  intros Hn Hfuel.
  assert (length (mjoin (split_batches m (strValues_of queue)))
          = length queue) as Hflat.
  { by rewrite strValues_flatten, length_fmap. }
  destruct (dispatch_loop_spec queue engine n Hn fuel 0
              (split_batches m (strValues_of queue)) (flush_start heap store))
    as (st' & L & W & Hrun & Hadv & Hids & Hall & HW & Hwaves);
    [done|simpl; lia|].
  destruct Hadv as [Hlog _ Hres Hwl _]. simpl in Hlog, Hres, Hwl, Hids.
  exists st'. split; [done|].
  rewrite Hflat, drop_0, firstn_all in Hids.
  by rewrite Hlog, Hwl.
Qed.


(** Without a ceiling the loop never ends: no amount of fuel is enough. *)
Lemma dispatch_loop_zero_ceiling fuel engine queue calls b batches st :
  dispatch_loop fuel 0 engine queue calls (b :: batches) st = inl OutOfFuel.
Proof.
  revert calls st. induction fuel as [|fuel IH]; intros calls st; [done|].
  cbn [dispatch_loop]. unfold splice0. rewrite take_0, drop_0.
  unfold mbind, M_bind. simpl. apply IH.
Qed.

(** With too little fuel the loop is cut short. *)
Lemma dispatch_loop_out_of_fuel engine n (queue : list Item) :
  1 ≤ n →
  ∀ fuel calls batches st,
    fuel < div_ceil (length batches) n →
    cursor st + length (mjoin batches) ≤ length queue →
    dispatch_loop fuel n engine queue calls batches st = inl OutOfFuel.
Proof.
  intros Hn. induction fuel as [|fuel IH]; intros calls batches st Hfuel Hlen.
  - destruct batches; [rewrite div_ceil_0 in Hfuel by done; lia|done].
  - destruct batches as [|b batches];
      [rewrite div_ceil_0 in Hfuel by done; lia|].
    remember (b :: batches) as bs eqn:Hbs.
    assert (0 < length bs) as Hne by (subst; simpl; lia).
    rewrite div_ceil_step in Hfuel by done.
    destruct (log_wave_advance (take n bs) st) as (st0 & Hrun0 & Hadv0).
    assert (cursor st0 = cursor st) as Hc0.
    { rewrite (adv_cursor _ _ _ _ Hadv0). simpl. lia. }
    assert (length (mjoin bs)
            = length (mjoin (take n bs)) + length (mjoin (drop n bs)))
      as Hjoin.
    { by rewrite <- length_app, <- join_app, take_drop. }
    destruct (settle_wave_spec queue engine calls (take n bs) st0)
      as (st1 & L1 & Hrun1 & Hadv1 & Hids1 & Hall1); [lia|].
    assert (length L1 = length (mjoin (take n bs))) as HL1.
    { apply Forall2_length in Hall1. by rewrite slots_length in Hall1. }
    rewrite Hbs at 1. cbn [dispatch_loop]. rewrite <- Hbs.
    unfold splice0. unfold mbind, M_bind. rewrite Hrun0, Hrun1.
    apply IH.
    + rewrite length_drop. lia.
    + rewrite (adv_cursor _ _ _ _ Hadv1). lia.
Qed.

End Flush.

(** * The batching step: order and size *)

(** C2. The batching step is a function of the items and of
    [maximumBatchSize]; the batches it produces, concatenated in order, are
    exactly the items in their original order, each once, in its truncated
    string form. *)
Theorem split_preserves_order `{Builtins} (maximumBatchSize : nat)
    (strValues : list string) (queue : list Item) :
  mjoin (split_batches maximumBatchSize strValues)
  = slice0 maximumBatchSize <$> strValues
  ∧ mjoin (split_batches maximumBatchSize (strValues_of queue))
    = (λ item, slice0 maximumBatchSize (convertToString (item_value item)))
        <$> queue.
Proof.
  split.
  - apply split_batches_flatten.
  - apply strValues_flatten.
Qed.

Lemma Forall_mjoin {A : Type} (P : A → Prop) (ls : list (list A)) :
  Forall P (mjoin ls) → Forall (Forall P) ls.
Proof.
  induction ls as [|l ls IH]; simpl; intros Hall; [constructor|].
  apply Forall_app in Hall as [Hl Hls]. constructor; auto.
Qed.

Lemma split_batches_single (m : nat) (s : string) :
  split_batches m [s] = [[slice0 m s]].
Proof.
  unfold split_batches. simpl.
  pose proof (slice0_length_le m s) as Hle.
  destruct (Nat.ltb_spec m (String.length (slice0 m s))); [lia|done].
Qed.

(** C3. Every string placed in a batch has been cut to at most
    [maximumBatchSize] characters; no batch holds more than
    [maximumBatchSize] characters in total unless it holds exactly one
    item; an item alone, also one whose truncated length equals
    [maximumBatchSize], makes a singleton batch. *)
Theorem batch_size_bound (maximumBatchSize : nat) (strValues : list string) :
  Forall (Forall (λ str, String.length str ≤ maximumBatchSize))
    (split_batches maximumBatchSize strValues)
  ∧ Forall (λ batch, total_length batch ≤ maximumBatchSize
                     ∨ length batch = 1)
      (split_batches maximumBatchSize strValues)
  ∧ ∀ s, split_batches maximumBatchSize [s] = [[slice0 maximumBatchSize s]]
         ∧ total_length [slice0 maximumBatchSize s] ≤ maximumBatchSize.
Proof.
  split; [|split].
  - apply Forall_mjoin. rewrite split_batches_flatten.
    apply Forall_fmap, Forall_forall. intros s _. apply slice0_length_le.
  - eapply Forall_impl; [apply split_batches_bound|]. intros b Hb. by left.
  - intros s. split; [apply split_batches_single|].
    rewrite total_length_singleton. apply slice0_length_le.
Qed.

(** The comparison with the budget is strict: an item that fills the budget
    exactly closes a batch that already holds characters and starts its
    own. *)
Lemma split_step_full_item (m : nat) batches cur (s : string) :
  0 < cur → String.length (slice0 m s) = m →
  split_step m (batches, cur) s = (batches ++ [[slice0 m s]], m).
Proof.
  intros Hcur Hfull. unfold split_step. rewrite Hfull.
  destruct (Nat.ltb_spec m (cur + m)); [done|lia].
Qed.

(** * Termination of the dispatch loop *)

(** C10. With [maximumParallelRequests >= 1] the loop returns after exactly
    [ceil (batches / maximumParallelRequests)] waves: that much fuel is
    enough, less is not; each wave takes the next
    [maximumParallelRequests] batches and leaves strictly fewer.  With a
    ceiling of zero no fuel is enough. *)
Theorem dispatch_terminates `{Builtins}
    (fuel maximumBatchSize maximumParallelRequests : nat) (engine : Engine)
    (queue : list Item) (heap : nat) (store : gmap nat Value) :
  1 ≤ maximumParallelRequests →
  let batches := split_batches maximumBatchSize (strValues_of queue) in
  let waves := div_ceil (length batches) maximumParallelRequests in
  (waves ≤ fuel →
   ∃ st',
     batchVectorize fuel maximumBatchSize maximumParallelRequests engine
       queue (flush_start heap store) = inr ((), st')
     ∧ length (wave_log st') = waves
     ∧ ∀ w, w < waves →
         wave_log st' !! w
         = Some (take maximumParallelRequests
                   (drop (w * maximumParallelRequests) batches))
         ∧ length (drop (S w * maximumParallelRequests) batches)
           < length (drop (w * maximumParallelRequests) batches))
  ∧ (fuel < waves →
     batchVectorize fuel maximumBatchSize maximumParallelRequests engine
       queue (flush_start heap store) = inl OutOfFuel)
  ∧ batchVectorize fuel maximumBatchSize 0 engine queue
      (flush_start heap store) = inl OutOfFuel.
Proof.
  intros Hn batches waves. split; [|split].
  - intros Hfuel.
    destruct (batchVectorize_spec fuel maximumBatchSize
                maximumParallelRequests engine queue heap store Hn Hfuel)
      as (st' & Hrun & _ & _ & _ & Hlen & Hwaves).
    exists st'. split; [done|]. split; [done|].
    intros w Hw. split.
    + apply Hwaves. by rewrite Hlen.
    + apply div_ceil_lt in Hw; [|done].
      rewrite !length_drop. fold batches. simpl. lia.
  - intros Hfuel. unfold batchVectorize.
    apply dispatch_loop_out_of_fuel; [done|done|].
    simpl. by rewrite strValues_flatten, length_fmap.
  - unfold batchVectorize.
    pose proof (split_batches_nonempty maximumBatchSize (strValues_of queue))
      as Hne.
    destruct (split_batches maximumBatchSize (strValues_of queue));
      [done|apply dispatch_loop_zero_ceiling].
Qed.

Lemma dispatch_terminates_witness :
  let batches := split_batches 4 (strValues_of (H := sample_builtins) sample_queue) in
  length batches = 3
  ∧ ∃ st',
      batchVectorize (H := sample_builtins) 2 4 2 sample_engine sample_queue
        (flush_start 5 ∅) = inr ((), st')
      ∧ length (wave_log st') = 2.
Proof.
  split; [reflexivity|].
  destruct (dispatch_terminates (H := sample_builtins) 2 4 2 sample_engine
              sample_queue 5 ∅) as [Hret _]; [lia|].
  destruct Hret as (st' & Hrun & Hlen & _); [vm_compute; lia|].
  exists st'. split; [exact Hrun|exact Hlen].
Defined.

(** * Delivery: from the engine's outcome to the caller *)

Section Delivery.

Context `{Builtins}.

Lemma create_poll_truthy store item v :
  store !! item_id item = Some v → truthy v = true →
  create_poll store item = Some v.
Proof.
  intros Hv Ht. unfold create_poll, results_get. rewrite Hv. simpl.
  by rewrite Ht.
Qed.

Lemma create_poll_absent store item :
  store !! item_id item = None → create_poll store item = None.
Proof. intros Hv. unfold create_poll, results_get. by rewrite Hv. Qed.


Lemma create_leave_deletes input item v w :
  _results (manager (create_leave input item v w).2) !! item_id item = None.
Proof.
  unfold create_leave.
  destruct (instanceof_Error v); [apply lookup_delete_eq|].
  destruct (negb (isArray v)); apply lookup_delete_eq.
Qed.



End Delivery.




(** The sample flush, evaluated: two batches in the first wave, one in the
    second; the first batch gets its vectors, the second the engine's
    [Error], the third the sentinel. *)
Example sample_flush_writes :
  ∃ st',
    batchVectorize (H := sample_builtins) 2 4 2 sample_engine sample_queue
      (flush_start 5 ∅) = inr ((), st')
    ∧ wave_log st' = [[["aa"; "bb"]; ["cc"; "dd"]]; [["ee"]]]
    ∧ set_log st'
      = [(0, sample_vector "aa"); (1, sample_vector "bb");
         (2, VError 100 "Not good!"); (3, VError 100 "Not good!");
         (4, minus_one)].
Proof. eexists. split; [vm_compute; reflexivity|]. split; reflexivity. Qed.

(** * Failed and malformed batches *)












(** * The transition system *)

Section Machine.

Context `{Builtins}.
Variable n : nat.
Variable engine : Engine.
Variable queue : list Item.

Lemma invoked_snoc tr l :
  invoked (tr ++ [l])
  = invoked tr + match l with Invoke w => length w | _ => 0 end.
Proof. unfold invoked. rewrite fmap_app, sum_list_with_app. simpl. lia. Qed.

Lemma settled_snoc tr l :
  settled (tr ++ [l])
  = settled tr + match l with Settle _ _ => 1 | _ => 0 end.
Proof. unfold settled. rewrite fmap_app, sum_list_with_app. simpl. lia. Qed.

Lemma pending_replicate (k : nat) :
  length (filter (λ o : option Settled, o = None) (replicate k None)) = k.
Proof.
  induction k as [|k IH]; [done|].
  cbn [replicate]. rewrite filter_cons_True by done. simpl. by rewrite IH.
Qed.

Lemma pending_all_settled (rs : list Settled) :
  filter (λ o : option Settled, o = None) (Some <$> rs) = [].
Proof.
  induction rs as [|r rs IH]; [done|].
  rewrite fmap_cons, filter_cons_False by done. exact IH.
Qed.

Lemma pending_settle (pending : list (option Settled)) j r :
  pending !! j = Some None →
  S (length (filter (λ o, o = None) (<[j := Some r]> pending)))
  = length (filter (λ o, o = None) pending).
Proof.
  intros Hj.
  rewrite <- (take_drop_middle pending j None Hj) at 2.
  rewrite insert_take_drop by (by eapply lookup_lt_Some).
  rewrite !filter_app, !length_app.
  rewrite filter_cons_False by done.
  rewrite filter_cons_True by done. simpl. lia.
Qed.


Lemma drop_take_length {A : Type} (k : nat) (l : list A) :
  drop k l = drop (length (take k l)) l.
Proof.
  rewrite length_take. destruct (decide (k ≤ length l)) as [Hle|Hgt].
  - by rewrite Nat.min_l.
  - rewrite Nat.min_r by lia. by rewrite !drop_ge by lia.
Qed.

Lemma dispatch_inv_start all st :
  dispatch_inv n engine all [] (dispatch_start all st).
Proof. by repeat split. Qed.

Lemma dispatch_inv_step all tr d l d' :
  dispatch_inv n engine all tr d →
  dispatch_step n engine queue d l d' →
  dispatch_inv n engine all (tr ++ [l]) d'.
Proof.
  intros Hinv Hstep. unfold dispatch_inv in *.
  destruct Hstep as [b batches calls st
                    |pB pending batches calls st j strValues Hj HpB
                    |pB pv batches calls st st' Hrun
                    |pB pv batches calls st e Hrun
                    |calls st]; simpl in *;
    rewrite invoked_snoc, settled_snoc.
  - destruct Hinv as (Hcalls & Hb & Hsettled).
    rewrite pending_replicate, length_replicate, Hb.
    repeat split; try lia.
    intros j r Hr. apply lookup_replicate in Hr as [Hr _]. done.
  - destruct Hinv as (HpB' & Hb & Hinvoked & Hlen & Hcount & Hres).
    pose proof (pending_settle pending j (engine (calls + j) strValues) Hj).
    rewrite length_insert.
    repeat split; try done; try lia.
    intros j' r Hr.
    destruct (decide (j = j')) as [<-|Hne].
    + rewrite list_lookup_insert_eq in Hr by (by eapply lookup_lt_Some).
      inversion Hr; subst. eauto.
    + rewrite list_lookup_insert_ne in Hr by done. eauto.
  - destruct Hinv as (HpB' & Hb & Hinvoked & Hlen & Hcount & Hres).
    rewrite pending_all_settled in Hcount. simpl in Hcount.
    repeat split; try lia.
    rewrite Hb, HpB', <- drop_drop. apply drop_take_length.
  - destruct Hinv as (HpB' & Hb & Hinvoked & Hlen & Hcount & Hres).
    rewrite pending_all_settled in Hcount. simpl in Hcount. lia.
  - destruct Hinv as (Hcalls & Hb & Hsettled). lia.
Qed.

Lemma well_timed_nil all : well_timed n all [].
Proof. intros tr1 wave tr2 Heq. by destruct tr1. Qed.

Lemma well_timed_snoc all tr l :
  well_timed n all tr →
  (∀ wave, l = Invoke wave →
     settled tr = invoked tr ∧ wave = take n (drop (invoked tr) all)
     ∧ length wave ≤ n) →
  well_timed n all (tr ++ [l]).
Proof.
  intros Htr Hl tr1 wave tr2 Heq.
  destruct tr2 as [|x tr2 _] using rev_ind.
  - apply app_inj_tail in Heq as [-> ->]. by apply Hl.
  - rewrite app_comm_cons, app_assoc in Heq.
    apply app_inj_tail in Heq as [-> _]. by eapply Htr.
Qed.

(** Every execution keeps the invariant and is well timed. *)
Lemma dispatch_run_inv all st tr d :
  dispatch_run n engine queue (dispatch_start all st) tr d →
  dispatch_inv n engine all tr d ∧ well_timed n all tr.
Proof.
  remember (dispatch_start all st) as d0 eqn:Hd0.
  induction 1 as [d|d tr d' l d'' Hrun IH Hstep]; subst.
  - split; [apply dispatch_inv_start|apply well_timed_nil].
  - destruct (IH eq_refl) as [Hinv Htimed].
    split; [by eapply dispatch_inv_step|].
    apply well_timed_snoc; [done|].
    intros wave ->. inversion Hstep; subst.
    unfold dispatch_inv in Hinv. simpl in Hinv.
    destruct Hinv as (Hcalls & Hb & Hsettled).
    unfold splice0. simpl. rewrite Hb, Hcalls.
    split; [done|]. split; [done|]. rewrite length_take. lia.
Qed.

Lemma pending_complete calls parallelBatches (parallelVectors : list Settled) :
  length (Some <$> parallelVectors) = length parallelBatches →
  (∀ j r, (Some <$> parallelVectors) !! j = Some (Some r) →
     ∃ strValues, parallelBatches !! j = Some strValues
                  ∧ r = engine (calls + j) strValues) →
  parallelVectors = allSettled engine calls parallelBatches.
Proof.
  intros Hlen Hres. apply list_eq. intros j.
  unfold allSettled. rewrite list_lookup_imap.
  destruct (parallelVectors !! j) as [r|] eqn:Hr.
  - destruct (Hres j r) as (strValues & Hb & ->).
    { by rewrite list_lookup_fmap, Hr. }
    by rewrite Hb.
  - apply lookup_ge_None in Hr. rewrite length_fmap in Hlen.
    rewrite (proj2 (lookup_ge_None parallelBatches j)); [done|lia].
Qed.

(** A step never changes what the loop with fuel goes on to compute. *)
Lemma remaining_step all tr d l d' :
  dispatch_inv n engine all tr d →
  dispatch_step n engine queue d l d' →
  ∀ fuel res, remaining n engine queue fuel d' = inr res →
    ∃ fuel', remaining n engine queue fuel' d = inr res.
Proof.
  intros Hinv Hstep fuel res Hres.
  destruct Hstep as [b batches calls st
                    |pB pending batches calls st j strValues Hj HpB
                    |pB pv batches calls st st' Hrun
                    |pB pv batches calls st e Hrun
                    |calls st].
  - exists (S fuel). exact Hres.
  - exists fuel. exact Hres.
  - exists fuel. unfold dispatch_inv in Hinv. simpl in Hinv.
    destruct Hinv as (_ & _ & _ & Hlen & _ & Hall).
    rewrite (pending_complete calls pB pv Hlen Hall) in Hrun.
    unfold remaining in *. simpl in *.
    unfold mbind, M_bind. by rewrite Hrun.
  - done.
  - exists fuel. unfold remaining in *. simpl in *.
    by destruct fuel.
Qed.

(** In whatever order the calls of a wave settle, an execution that
    returns ends in the state that the loop with fuel computes. *)
Lemma dispatch_run_adequate all st tr d :
  dispatch_run n engine queue (dispatch_start all st) tr d →
  ∀ fuel res, remaining n engine queue fuel d = inr res →
    ∃ fuel', dispatch_loop fuel' n engine queue 0 all st = inr res.
Proof.
  remember (dispatch_start all st) as d0 eqn:Hd0.
  induction 1 as [d|d tr d' l d'' Hrun IH Hstep]; subst;
    intros fuel res Hres.
  - by exists fuel.
  - destruct (dispatch_run_inv all st tr d' Hrun) as [Hinv _].
    destruct (remaining_step all tr d' l d'' Hinv Hstep fuel res Hres)
      as [fuel' Hres'].
    by apply (IH eq_refl fuel' res).
Qed.

Lemma bind_inr {A B : Type} (c : M A) (f : A → M B) st res :
  (c ≫= f) st = inr res →
  ∃ x st1, c st = inr (x, st1) ∧ f x st1 = inr res.
Proof.
  unfold mbind, M_bind. destruct (c st) as [e|[x st1]]; [done|]. eauto.
Qed.

Lemma forEach_from_preserves {A : Type} (I : Flush → Prop)
    (f : A → nat → M ()) :
  (∀ x k st st', f x k st = inr ((), st') → I st → I st') →
  ∀ l from st st', forEach_from from f l st = inr ((), st') → I st → I st'.
Proof.
  intros Hf. induction l as [|x l IH]; intros from st st' Hrun HI.
  - by inversion Hrun; subst.
  - simpl in Hrun. apply bind_inr in Hrun as ([] & st1 & Hx & Hl).
    eapply IH; [done|]. by eapply Hf.
Qed.

Lemma store_truthy_set st result k v (item : Item) heap' cursor' :
  store_truthy st → delivered result k v →
  store_truthy
    {| heap_next := heap'; results := <[item_id item := v]> (results st);
       cursor := cursor'; set_log := set_log st ++ [(item_id item, v)];
       wave_log := wave_log st |}.
Proof.
  intros [Hlog Hstore] Hdel. split; simpl.
  - apply Forall_app. split; [done|]. repeat constructor. simpl. eauto.
  - intros id v'. rewrite lookup_insert. case_decide.
    + intros [= <-]. by eapply delivered_truthy.
    + apply Hstore.
Qed.

Lemma set_rejected_truthy reason str k st st' :
  set_rejected queue reason str k st = inr ((), st') →
  store_truthy st → store_truthy st'.
Proof.
  unfold set_rejected, mbind, M_bind, new_Error, queue_next, mret, M_ret.
  intros Hrun Htruthy.
  destruct (instanceof_Error reason) eqn:Herr; simpl in Hrun;
    destruct (queue !! cursor st) as [item|]; simpl in Hrun;
    inversion Hrun; subst.
  - apply (store_truthy_set st (Rejected reason) k); [done|].
    by constructor.
  - apply (store_truthy_set st (Rejected reason) k); [done|].
    by constructor.
Qed.

Lemma set_fulfilled_truthy value str k st st' :
  set_fulfilled queue (vectors_of value) str k st = inr ((), st') →
  store_truthy st → store_truthy st'.
Proof.
  unfold set_fulfilled, mbind, M_bind, queue_next.
  fold (entry_at value k).
  intros Hrun Htruthy.
  destruct (truthy (entry_at value k)) eqn:Ht; simpl in Hrun;
    destruct (queue !! cursor st) as [item|]; simpl in Hrun;
    inversion Hrun; subst.
  - apply (store_truthy_set st (Fulfilled value) k); [done|].
    by constructor.
  - apply (store_truthy_set st (Fulfilled value) k); [done|].
    by constructor.
Qed.

Lemma settle_wave_truthy parallelBatches parallelVectors st st' :
  settle_wave queue parallelBatches parallelVectors st = inr ((), st') →
  store_truthy st → store_truthy st'.
Proof.
  unfold settle_wave, forEach.
  apply forEach_from_preserves. clear st st'.
  intros result j st st'. unfold settle_batch.
  destruct (parallelBatches !! j) as [batch|]; [|done].
  destruct result as [value|reason].
  - apply forEach_from_preserves. intros str k.
    apply set_fulfilled_truthy.
  - apply forEach_from_preserves. intros str k.
    apply set_rejected_truthy.
Qed.

Lemma dispatch_step_truthy d l d' :
  dispatch_step n engine queue d l d' →
  store_truthy (flush d) → store_truthy (flush d').
Proof.
  destruct 1 as [| |pB pv batches calls st st' Hrun| |]; simpl; try done.
  by apply (settle_wave_truthy pB pv).
Qed.

Lemma dispatch_run_truthy d tr d' :
  dispatch_run n engine queue d tr d' →
  store_truthy (flush d) → store_truthy (flush d').
Proof.
  induction 1 as [d|d tr d' l d'' Hrun IH Hstep]; [done|].
  intros Htruthy. eapply dispatch_step_truthy; eauto.
Qed.



End Machine.

(** * Waves and the concurrency ceiling *)

Lemma run_cons `{Builtins} n engine queue d l d' tr d'' :
  dispatch_step n engine queue d l d' →
  dispatch_run n engine queue d' tr d'' →
  dispatch_run n engine queue d (l :: tr) d''.
Proof.
  intros Hstep Hrun. induction Hrun as [d'|d' tr d1 l' d2 Hrun IH Hstep'].
  - apply (run_snoc _ _ _ d [] d); [constructor|done].
  - rewrite app_comm_cons. eapply run_snoc; [by apply IH|done].
Qed.

Lemma sample_run :
  dispatch_run (H := sample_builtins) 2 sample_engine sample_queue
    (dispatch_start sample_batches (flush_start 5 ∅)) sample_trace
    sample_final.
Proof.
  unfold sample_trace.
  eapply run_cons; [apply step_invoke|]. simpl.
  eapply run_cons; [by apply (step_settle _ sample_engine _ _ _ _ 0 _ 1 ["cc"; "dd"])|].
  eapply run_cons; [by apply (step_settle _ sample_engine _ _ _ _ 0 _ 0 ["aa"; "bb"])|].
  eapply run_cons.
  { apply (step_resume _ _ _ _
             [sample_engine (0 + 0) ["aa"; "bb"];
              sample_engine (0 + 1) ["cc"; "dd"]]).
    vm_compute. reflexivity. }
  eapply run_cons; [apply step_invoke|]. simpl.
  eapply run_cons; [by apply (step_settle _ sample_engine _ _ _ _ 2 _ 0 ["ee"])|].
  eapply run_cons.
  { apply (step_resume _ _ _ _ [sample_engine (2 + 0) ["ee"]]).
    vm_compute. reflexivity. }
  eapply run_cons; [apply step_return|].
  apply run_nil.
Qed.



(** * Truthy outcomes *)

(** C9. In every state the dispatch can reach from a store of truthy
    values, each value written stands for an outcome (an [Error], a truthy
    entry or the sentinel [-1]) and is truthy, so the test of [create]'s
    wait loop finds a value exactly when the store holds one for the
    item. *)
Theorem written_outcomes_truthy `{Builtins} (maximumParallelRequests : nat)
    (engine : Engine) (queue : list Item) (batches : list (list string))
    (fresh : nat) (store : gmap nat Value) (tr : list Label)
    (d : Dispatch) :
  (∀ id v, store !! id = Some v → truthy v = true) →
  dispatch_run maximumParallelRequests engine queue
    (dispatch_start batches (flush_start fresh store)) tr d →
  Forall (λ w, truthy w.2 = true ∧ ∃ result k, delivered result k w.2)
    (set_log (flush d))
  ∧ ∀ item,
      create_poll (results (flush d)) item
      = results (flush d) !! item_id item.
Proof.
  intros Hstore Hrun.
  destruct (dispatch_run_truthy maximumParallelRequests engine queue
              _ _ _ Hrun) as [Hlog Hres].
  { split; [constructor|exact Hstore]. }
  split.
  - eapply Forall_impl; [exact Hlog|].
    intros w (result & k & Hdel). split; [|eauto].
    by eapply delivered_truthy.
  - intros item. unfold create_poll, results_get.
    destruct (results (flush d) !! item_id item) as [v|] eqn:Hv; [|done].
    simpl. by rewrite (Hres _ _ Hv).
Qed.

Lemma written_outcomes_truthy_witness :
  Forall (λ w, truthy w.2 = true
               ∧ ∃ result k, delivered (H := sample_builtins) result k w.2)
    (set_log (flush sample_final))
  ∧ create_poll (results (flush sample_final)) (item_of 4 "ee")
    = Some minus_one.
Proof.
  destruct (written_outcomes_truthy (H := sample_builtins) 2 sample_engine
              sample_queue sample_batches 5 ∅ sample_trace sample_final)
    as [Hlog Hpoll].
  - intros id v Hv. rewrite lookup_empty in Hv. discriminate Hv.
  - exact sample_run.
  - split; [exact Hlog|]. rewrite Hpoll. reflexivity.
Defined.

(** * The debounce timer *)

(** C5. When the timer set by [createTimeout] expires: (1) while a flush
    is in progress the manager sets that timer again, with the delay
    [fastQueueTime]; (2) otherwise, with at most one queued request, it
    flushes at once: the queue is handed over and emptied; (3) otherwise
    it sets a timer with the delay [waitQueueTime - fastQueueTime] whose
    expiry flushes whatever the state is then. *)
Theorem debounce_fast_expiry (w : World) :
  (_processing (manager w) = true →
     on_timer FastExpiry w = createTimeout w
     ∧ timers (on_timer FastExpiry w)
       = timers w ++ [{| timer_id := heap w;
                         timer_delay := fastQueueTime (manager w);
                         timer_callback := FastExpiry |}]
     ∧ _timeout (manager (on_timer FastExpiry w)) = Some (heap w)
     ∧ _queue (manager (on_timer FastExpiry w)) = _queue (manager w)
     ∧ flushed (on_timer FastExpiry w) = flushed w)
  ∧ (_processing (manager w) = false →
     length (_queue (manager w)) ≤ 1 →
     on_timer FastExpiry w = __dequeue__ w
     ∧ flushed (on_timer FastExpiry w) = flushed w ++ [_queue (manager w)]
     ∧ _queue (manager (on_timer FastExpiry w)) = []
     ∧ _timeout (manager (on_timer FastExpiry w)) = None
     ∧ _processing (manager (on_timer FastExpiry w)) = true)
  ∧ (_processing (manager w) = false →
     1 < length (_queue (manager w)) →
     timers (on_timer FastExpiry w)
     = timers w ++ [{| timer_id := heap w;
                       timer_delay := (waitQueueTime (manager w)
                                       - fastQueueTime (manager w))%Z;
                       timer_callback := WaitExpiry |}]
     ∧ _timeout (manager (on_timer FastExpiry w)) = Some (heap w)
     ∧ _queue (manager (on_timer FastExpiry w)) = _queue (manager w)
     ∧ flushed (on_timer FastExpiry w) = flushed w
     ∧ ∀ w', on_timer WaitExpiry w' = __dequeue__ w'
             ∧ flushed (on_timer WaitExpiry w')
               = flushed w' ++ [_queue (manager w')]
             ∧ _queue (manager (on_timer WaitExpiry w')) = []).
Proof.
  split; [|split].
  - intros Hbusy. unfold on_timer. rewrite Hbusy. by repeat split.
  - intros Hidle Hlen. unfold on_timer. rewrite Hidle.
    destruct (Nat.leb_spec (length (_queue (manager w))) 1); [|lia].
    by repeat split.
  - intros Hidle Hlen. unfold on_timer at 1 2 3 4. rewrite Hidle.
    destruct (Nat.leb_spec (length (_queue (manager w))) 1); [lia|].
    by repeat split.
Qed.

Lemma debounce_fast_expiry_witness :
  timers (on_timer FastExpiry
            (sample_world (set_processing true __initialize__)))
  = [{| timer_id := 0; timer_delay := 10; timer_callback := FastExpiry |}]
  ∧ flushed (on_timer FastExpiry
               (sample_world (set_queue [item_of 0 "aa"] __initialize__)))
    = [[item_of 0 "aa"]]
  ∧ timers (on_timer FastExpiry
              (sample_world
                 (set_queue [item_of 0 "aa"; item_of 1 "bb"] __initialize__)))
    = [{| timer_id := 0; timer_delay := 90; timer_callback := WaitExpiry |}].
Proof.
  split; [|split].
  - destruct (debounce_fast_expiry
                (sample_world (set_processing true __initialize__)))
      as [Hbusy _].
    destruct (Hbusy eq_refl) as (_ & Htimers & _). exact Htimers.
  - destruct (debounce_fast_expiry
                (sample_world (set_queue [item_of 0 "aa"] __initialize__)))
      as (_ & Hsingle & _).
    destruct (Hsingle eq_refl) as (_ & Hflushed & _); [simpl; lia|].
    exact Hflushed.
  - destruct (debounce_fast_expiry
                (sample_world
                   (set_queue [item_of 0 "aa"; item_of 1 "bb"]
                      __initialize__)))
      as (_ & _ & Hburst).
    destruct (Hburst eq_refl) as (Htimers & _); [simpl; lia|].
    exact Htimers.
Defined.

(** * [create] without an engine *)

(** C8. With no engine set, [create] throws, for every value, an [Error]
    whose message says that no vector engine has been set and points to
    [setEngine]; the manager, its queue and the pending timers are left as
    they were. *)
Theorem create_without_engine (value : Value) (w : World) :
  _vectorize (manager w) = None →
  ∃ w',
    create_enter value w = (inl (VError (heap w) no_engine_message), w')
    ∧ manager w' = manager w
    ∧ timers w' = timers w
    ∧ flushed w' = flushed w
    ∧ String.prefix "Could not vectorize: no vector engine has been set"
        no_engine_message = true
    ∧ String.index 0 "setEngine" no_engine_message = Some 72.
Proof.
  intros Hnone. unfold create_enter. rewrite Hnone.
  eexists. split; [reflexivity|]. by repeat split.
Qed.

Lemma create_without_engine_witness :
  ∃ w',
    create_enter (VStr "I am extremely happy") (sample_world __initialize__)
    = (inl (VError 0 no_engine_message), w')
    ∧ _queue (manager w') = []
    ∧ timers w' = [].
Proof.
  destruct (create_without_engine (VStr "I am extremely happy")
              (sample_world __initialize__) eq_refl)
    as (w' & Hrun & Hmanager & Htimers & _).
  exists w'. split; [exact Hrun|].
  rewrite Hmanager, Htimers. split; reflexivity.
Defined.

(** * Queued requests are distinct *)

Lemma world_fresh_initial : world_fresh (sample_world __initialize__).
Proof.
  split; [constructor|]. split; [|constructor].
  intros item Hin. simpl in Hin. by apply elem_of_nil in Hin.
Qed.

Lemma createTimeout_fresh (w : World) :
  world_fresh w → world_fresh (createTimeout w).
Proof.
  intros (Hnd & Hlt & Hfl). split; [done|]. split; [|done].
  intros item Hin. simpl in *. specialize (Hlt item Hin). lia.
Qed.

Lemma dequeue_fresh (w : World) :
  world_fresh w → world_fresh (__dequeue__ w).
Proof.
  intros (Hnd & Hlt & Hfl). split; [constructor|]. split.
  - intros item Hin. simpl in Hin. by apply elem_of_nil in Hin.
  - simpl. apply Forall_app. split; [done|]. by repeat constructor.
Qed.

Lemma on_timer_fresh (callback : Callback) (w : World) :
  world_fresh w → world_fresh (on_timer callback w).
Proof.
  intros Hw. destruct callback; simpl; [|by apply dequeue_fresh].
  destruct (_processing (manager w)); [by apply createTimeout_fresh|].
  destruct (length (_queue (manager w)) <=? 1); [by apply dequeue_fresh|].
  destruct Hw as (Hnd & Hlt & Hfl). split; [done|]. split; [|done].
  intros item Hin. simpl in *. specialize (Hlt item Hin). lia.
Qed.

Lemma create_enter_fresh (value : Value) (w : World) :
  world_fresh w → world_fresh (create_enter value w).2.
Proof.
  intros (Hnd & Hlt & Hfl). unfold create_enter.
  destruct (_vectorize (manager w)) as [engine|]; simpl.
  - assert (world_fresh
              {| manager :=
                   set_queue
                     (_queue (manager w)
                      ++ [{| item_id := heap w; item_value := value |}])
                     (manager w);
                 timers := timers w; heap := S (heap w);
                 flushed := flushed w |}) as Hw.
    { split; [|split; [|done]]; simpl.
      - rewrite fmap_app. apply NoDup_app. split; [done|]. split.
        + intros id Hin Hin'. simpl in Hin'.
          apply list_elem_of_singleton in Hin'. subst id.
          apply list_elem_of_fmap in Hin as (item & Hid & Hin).
          specialize (Hlt item Hin). lia.
        + simpl. apply NoDup_singleton.
      - intros item Hin. apply elem_of_app in Hin as [Hin|Hin].
        + specialize (Hlt item Hin). lia.
        + apply list_elem_of_singleton in Hin. subst item. simpl. lia. }
    destruct (_timeout (manager w)); [done|by apply createTimeout_fresh].
  - split; [done|]. split; [|done].
    intros item Hin. simpl in *. specialize (Hlt item Hin). lia.
Qed.

(** * More on the batching step *)

Lemma slice0_prefix (n : nat) (s : string) :
  ∃ rest, s = slice0 n s +:+ rest.
Proof.
  unfold slice0. revert s. induction n as [|n IH]; intros s.
  - exists s. by destruct s.
  - destruct s as [|c s]; [by exists ""|].
    destruct (IH s) as [rest Hrest]. exists rest.
    change (String c s = String c (String.substring 0 n s +:+ rest)).
    by f_equal.
Qed.

Lemma slice0_fits (n : nat) (s : string) :
  String.length s ≤ n → slice0 n s = s.
Proof.
  unfold slice0. revert s. induction n as [|n IH]; intros [|c s] Hlen;
    simpl in *; try done; try lia.
  rewrite IH; [done|lia].
Qed.

(** X1. Every string handed to the engine is the beginning of the string
    of its request: its first [maximumBatchSize] characters, or all of
    them when there are fewer. *)
Theorem engine_receives_prefixes (maximumBatchSize : nat)
    (strValues : list string) :
  Forall2 (λ str sent,
             (∃ rest, str = sent +:+ rest)
             ∧ String.length sent
               = maximumBatchSize `min` String.length str)
    strValues (mjoin (split_batches maximumBatchSize strValues)).
Proof.
  rewrite split_batches_flatten. apply Forall2_fmap_r, Forall_Forall2_diag.
  apply Forall_forall. intros s _. split.
  - apply slice0_prefix.
  - apply slice0_length.
Qed.

(** X2. Strings that are within the budget reach the engine as they are:
    nothing is cut. *)
Theorem within_budget_unchanged (maximumBatchSize : nat)
    (strValues : list string) :
  Forall (λ str, String.length str ≤ maximumBatchSize) strValues →
  mjoin (split_batches maximumBatchSize strValues) = strValues.
Proof.
  intros Hfit. rewrite split_batches_flatten.
  induction Hfit as [|s strValues Hs _ IH]; [done|].
  rewrite fmap_cons, IH. by rewrite slice0_fits.
Qed.

Lemma within_budget_unchanged_witness :
  mjoin (split_batches 4 ["aa"; "bbbb"; "c"]) = ["aa"; "bbbb"; "c"].
Proof.
  apply within_budget_unchanged. repeat constructor; simpl; lia.
Defined.

Lemma snoc_eq_split {A : Type} (l : list A) x pre b b' post :
  l ++ [x] = pre ++ b :: b' :: post →
  (post = [] ∧ b' = x ∧ l = pre ++ [b])
  ∨ ∃ post', post = post' ++ [x] ∧ l = pre ++ b :: b' :: post'.
Proof.
  intros Heq. destruct post as [|y post _] using rev_ind.
  - left. replace (pre ++ [b; b']) with ((pre ++ [b]) ++ [b']) in Heq
      by (by rewrite <- app_assoc).
    by apply app_inj_tail in Heq as [-> ->].
  - right. exists post.
    replace (pre ++ b :: b' :: post ++ [y])
      with ((pre ++ b :: b' :: post) ++ [y]) in Heq
      by (by rewrite <- app_assoc).
    by apply app_inj_tail in Heq as [-> ->].
Qed.

Lemma split_shape_step (m : nat) st raw :
  split_shape m st → split_shape m (split_step m st raw).
Proof.
  pose proof (slice0_length_le m raw) as Hle.
  intros [->|(closed & cur & Hb & Hc & Hne & Hgreedy)].
  - right. unfold split_step. simpl.
    destruct (Nat.ltb_spec m (String.length (slice0 m raw))); [lia|].
    exists [], [slice0 m raw]. simpl.
    split; [done|]. split; [by rewrite total_length_singleton|].
    split; [by repeat constructor|].
    intros pre b b' post Heq. apply (f_equal length) in Heq.
    rewrite length_app in Heq. simpl in Heq. lia.
  - right. destruct st as [batches curBatchSize]. simpl in *. subst.
    unfold split_step.
    destruct (Nat.ltb_spec m (total_length cur + String.length (slice0 m raw)))
      as [Hgt|Hfit].
    + exists (closed ++ [cur]), [slice0 m raw]. simpl.
      split; [done|]. split; [by rewrite total_length_singleton|].
      split; [apply Forall_app; split; [done|by repeat constructor]|].
      intros pre b b' post Heq.
      apply snoc_eq_split in Heq as [(-> & -> & Heq)|(post' & -> & Heq)].
      * apply app_inj_tail in Heq as [_ ->]. by eexists _, _.
      * by eapply Hgreedy.
    + rewrite length_app. simpl.
      replace (length closed + 1 - 1) with (length closed + 0) by lia.
      rewrite alter_app_r. simpl.
      exists closed, (cur ++ [slice0 m raw]). simpl.
      split; [done|].
      split; [by rewrite total_length_app, total_length_singleton|].
      apply Forall_app in Hne as [Hclosed Hcur].
      split.
      { apply Forall_app. split; [done|]. repeat constructor.
        by destruct cur. }
      intros pre b b' post Heq.
      apply snoc_eq_split in Heq as [(-> & -> & ->)|(post' & -> & ->)].
      * destruct (Hgreedy pre b cur []) as (s & rest & -> & Hs).
        { by rewrite <- app_assoc. }
        by exists s, (rest ++ [slice0 m raw]).
      * apply (Hgreedy pre b b' (post' ++ [cur])).
        by rewrite <- !app_assoc.
Qed.

Lemma split_shape_foldl (m : nat) strValues st :
  split_shape m st → split_shape m (foldl (split_step m) st strValues).
Proof.
  revert st. induction strValues as [|raw strValues IH]; intros st Hst;
    [done|].
  simpl. by apply IH, split_shape_step.
Qed.

Lemma split_shape_nonempty (m : nat) raw strValues :
  ∃ closed cur,
    let st := foldl (split_step m) ([[]], 0) (raw :: strValues) in
    st.1 = closed ++ [cur] ∧ st.2 = total_length cur
    ∧ Forall (λ b, b ≠ []) st.1 ∧ greedy m st.1.
Proof.
  simpl.
  assert (split_shape m (split_step m ([[]], 0) raw)) as Hfirst
    by (apply split_shape_step; by left).
  destruct Hfirst as [Hinit|Hshape].
  { unfold split_step in Hinit. simpl in Hinit.
    destruct (m <? String.length (slice0 m raw)); by inversion Hinit. }
  pose proof (split_shape_foldl m strValues _ (or_intror Hshape)) as Hall.
  assert (∀ st, (∃ closed cur, st.1 = closed ++ [cur]
                   ∧ st.2 = total_length cur
                   ∧ Forall (λ b, b ≠ []) st.1 ∧ greedy m st.1) →
                st ≠ ([[]], 0)) as Hne.
  { intros st (closed & cur & Hb & _ & Hall' & _) ->. simpl in Hall'.
    by inversion Hall'. }
  destruct Hall as [Hinit|Hdone]; [|done].
  exfalso. revert Hinit. generalize (split_step m ([[]], 0) raw) Hshape.
  induction strValues as [|x strValues IH]; intros st Hst Hinit.
  - simpl in Hinit. by apply (Hne st).
  - simpl in Hinit. apply (IH (split_step m st x)); [|done].
    destruct (split_shape_step m st x (or_intror Hst)) as [Hbad|Hok];
      [|done].
    exfalso. destruct Hst as (closed & cur & Hb & Hc & Hall' & Hg).
    destruct st as [batches c]. simpl in *. subst.
    unfold split_step in Hbad.
    destruct (m <? total_length cur + String.length (slice0 m x)).
    + inversion Hbad as [[Hl Hz]]. apply (f_equal length) in Hl.
      rewrite !length_app in Hl. simpl in Hl. lia.
    + inversion Hbad as [[Hl Hz]].
      rewrite length_app in Hl. simpl in Hl.
      replace (length closed + 1 - 1) with (length closed + 0) in Hl by lia.
      rewrite alter_app_r in Hl. simpl in Hl.
      destruct closed as [|c0 closed]; simpl in Hl.
      * inversion Hl as [Hcur]. by destruct cur.
      * inversion Hl as [[Hc0 Hrest]]. by destruct closed.
Qed.

(** X3. The engine is never given an empty batch, except that an empty
    queue makes one empty batch. *)
Theorem no_empty_batch (maximumBatchSize : nat) (raw : string)
    (strValues : list string) :
  split_batches maximumBatchSize [] = [[]]
  ∧ Forall (λ batch, batch ≠ [])
      (split_batches maximumBatchSize (raw :: strValues)).
Proof.
  split; [done|].
  destruct (split_shape_nonempty maximumBatchSize raw strValues)
    as (closed & cur & _ & _ & Hall & _).
  exact Hall.
Qed.

(** X4. The split is greedy: a batch is followed by another only because
    the first string of the next one did not fit in it. *)
Theorem batches_are_greedy (maximumBatchSize : nat)
    (strValues : list string) pre b b' post :
  split_batches maximumBatchSize strValues = pre ++ b :: b' :: post →
  ∃ s rest,
    b' = s :: rest
    ∧ maximumBatchSize < total_length b + String.length s.
Proof.
  destruct strValues as [|raw strValues].
  - intros Heq. apply (f_equal length) in Heq.
    rewrite length_app in Heq. simpl in Heq. lia.
  - destruct (split_shape_nonempty maximumBatchSize raw strValues)
      as (closed & cur & _ & _ & _ & Hgreedy).
    apply Hgreedy.
Qed.

Lemma batches_are_greedy_witness :
  ∃ s rest, ["cc"; "dd"] = s :: rest ∧ 4 < total_length ["aa"; "bb"] + String.length s.
Proof.
  apply (batches_are_greedy 4 ["aa"; "bb"; "cc"; "dd"; "ee"]
           [] ["aa"; "bb"] ["cc"; "dd"] [["ee"]]).
  reflexivity.
Defined.

(** * More on the dispatch *)








Lemma dispatch_loop_more_fuel `{Builtins} n engine queue :
  ∀ fuel fuel' calls batches st res,
    fuel ≤ fuel' →
    dispatch_loop fuel n engine queue calls batches st = inr res →
    dispatch_loop fuel' n engine queue calls batches st = inr res.
Proof.
  induction fuel as [|fuel IH]; intros fuel' calls batches st res Hle Hrun.
  - destruct batches; [by destruct fuel'|done].
  - destruct fuel' as [|fuel']; [lia|].
    destruct batches as [|b batches]; [done|].
    cbn [dispatch_loop] in *. unfold splice0 in *.
    apply bind_inr in Hrun as ([] & st0 & Hlog & Hrun).
    apply bind_inr in Hrun as ([] & st1 & Hwave & Hrun).
    unfold mbind, M_bind. rewrite Hlog, Hwave.
    apply IH; [lia|done].
Qed.

Lemma sample_run_in_order :
  dispatch_run (H := sample_builtins) 2 sample_engine sample_queue
    (dispatch_start sample_batches (flush_start 5 ∅)) sample_trace_in_order
    sample_final.
Proof.
  unfold sample_trace_in_order.
  eapply run_cons; [apply step_invoke|]. simpl.
  eapply run_cons;
    [by apply (step_settle _ sample_engine _ _ _ _ 0 _ 0 ["aa"; "bb"])|].
  eapply run_cons;
    [by apply (step_settle _ sample_engine _ _ _ _ 0 _ 1 ["cc"; "dd"])|].
  eapply run_cons.
  { apply (step_resume _ _ _ _
             [sample_engine (0 + 0) ["aa"; "bb"];
              sample_engine (0 + 1) ["cc"; "dd"]]).
    vm_compute. reflexivity. }
  eapply run_cons; [apply step_invoke|]. simpl.
  eapply run_cons;
    [by apply (step_settle _ sample_engine _ _ _ _ 2 _ 0 ["ee"])|].
  eapply run_cons.
  { apply (step_resume _ _ _ _ [sample_engine (2 + 0) ["ee"]]).
    vm_compute. reflexivity. }
  eapply run_cons; [apply step_return|].
  apply run_nil.
Qed.

(** X9. The order in which the calls of a wave settle does not matter: two
    executions of the same dispatch that return end with the same store,
    the same writes in the same order and the same waves, namely those the
    loop computes when every wave is taken as a whole. *)
Theorem settle_order_irrelevant `{Builtins} (maximumParallelRequests : nat)
    (engine : Engine) (queue : list Item) (batches : list (list string))
    (st : Flush) (tr1 tr2 : list Label) (d1 d2 : Dispatch) :
  dispatch_run maximumParallelRequests engine queue
    (dispatch_start batches st) tr1 d1 →
  dispatch_run maximumParallelRequests engine queue
    (dispatch_start batches st) tr2 d2 →
  phase d1 = Returned →
  phase d2 = Returned →
  flush d1 = flush d2
  ∧ ∃ fuel,
      dispatch_loop fuel maximumParallelRequests engine queue 0 batches st
      = inr ((), flush d1).
Proof.
  intros Hrun1 Hrun2 Hd1 Hd2.
  destruct (dispatch_run_adequate maximumParallelRequests engine queue
              batches st tr1 d1 Hrun1 0 ((), flush d1)) as [f1 Hf1].
  { unfold remaining. by rewrite Hd1. }
  destruct (dispatch_run_adequate maximumParallelRequests engine queue
              batches st tr2 d2 Hrun2 0 ((), flush d2)) as [f2 Hf2].
  { unfold remaining. by rewrite Hd2. }
  apply (dispatch_loop_more_fuel _ _ _ f1 (f1 `max` f2)) in Hf1 as Hm1;
    [|lia].
  apply (dispatch_loop_more_fuel _ _ _ f2 (f1 `max` f2)) in Hf2 as Hm2;
    [|lia].
  rewrite Hm1 in Hm2. split; [by inversion Hm2|eauto].
Qed.

Lemma settle_order_irrelevant_witness :
  flush sample_final = flush sample_final
  ∧ ∃ fuel,
      dispatch_loop (H := sample_builtins) fuel 2 sample_engine sample_queue
        0 sample_batches (flush_start 5 ∅)
      = inr ((), flush sample_final).
Proof.
  apply (settle_order_irrelevant (H := sample_builtins) 2 sample_engine
           sample_queue sample_batches (flush_start 5 ∅) sample_trace
           sample_trace_in_order sample_final sample_final).
  - exact sample_run.
  - exact sample_run_in_order.
  - reflexivity.
  - reflexivity.
Defined.

(** * The manager between turns of the event loop *)

Section Worlds.

Context `{Builtins}.

Lemma setEngine_inr fnVectorize m m' :
  setEngine fnVectorize m = inr m' →
  _queue m' = _queue m ∧ _timeout m' = _timeout m
  ∧ _results m' = _results m ∧ _processing m' = _processing m
  ∧ is_Some (_vectorize m').
Proof. destruct fnVectorize; [done|done|]. intros [= <-]. simpl. eauto. Qed.

(** What a step does to the accepted requests: nothing, or one more at
    the end, with the identity the allocator held. *)
Lemma world_step_accepted w w' :
  world_step w w' →
  (accepted w' = accepted w ∧ heap w ≤ heap w')
  ∨ ∃ value,
      accepted w' = accepted w ++ [{| item_id := heap w;
                                      item_value := value |}]
      ∧ heap w < heap w'.
Proof.
  destruct 1 as [value w|t w Ht|item v w|w|w|value item result w
                |fnVectorize m' w Hset].
  - unfold create_enter.
    destruct (_vectorize (manager w)); [|left; split; [done|simpl; lia]].
    right. exists value. unfold accepted.
    destruct (_timeout (manager w)) eqn:Ht; simpl; rewrite Ht; simpl.
    all: split; try lia; by rewrite app_assoc.
  - left. unfold expire, on_timer, accepted.
    destruct (timer_callback t); simpl.
    + destruct (_processing (manager w)); [simpl; split; [done|lia]|].
      destruct (length (_queue (manager w)) <=? 1); simpl.
      * split; [|lia]. by rewrite join_app, app_nil_r; simpl;
          rewrite app_nil_r.
      * split; [done|lia].
    + split; [|lia]. by rewrite join_app, app_nil_r; simpl;
        rewrite app_nil_r.
  - left. by split.
  - left. split; [done|simpl; lia].
  - left. by split.
  - left. unfold create_leave.
    destruct (instanceof_Error result); [by split|].
    destruct (negb (isArray result)); split; simpl; try done; lia.
  - left. apply setEngine_inr in Hset as (Hq & _). unfold accepted. simpl.
    by rewrite Hq.
Qed.

Lemma world_step_fresh w w' :
  world_step w w' → accepted_fresh w → accepted_fresh w'.
Proof.
  intros Hstep [Hnd Hlt].
  destruct (world_step_accepted w w' Hstep)
    as [[Heq Hheap]|(value & Heq & Hheap)];
    unfold accepted_fresh; rewrite Heq.
  - split; [done|]. intros item Hin. specialize (Hlt item Hin). lia.
  - split.
    + rewrite fmap_app. apply NoDup_app. split; [done|]. split.
      * intros id Hin Hin'. simpl in Hin'.
        apply list_elem_of_singleton in Hin'. subst id.
        apply list_elem_of_fmap in Hin as (item & Hid & Hin).
        specialize (Hlt item Hin). lia.
      * simpl. apply NoDup_singleton.
    + intros item Hin. apply elem_of_app in Hin as [Hin|Hin].
      * specialize (Hlt item Hin). lia.
      * apply list_elem_of_singleton in Hin. subst item. simpl. lia.
Qed.

Lemma filter_expired (t : Timer) :
  filter (λ t', timer_id t' ≠ timer_id t) [t] = [].
Proof. by rewrite filter_cons_False by (intros Hne; by apply Hne). Qed.

Lemma world_step_debounce w w' :
  world_step w w' → debounce_inv w → debounce_inv w'.
Proof.
  intros Hstep (Htimer & Hqueue & Hflushed).
  unfold debounce_inv, timer_inv in *.
  destruct Hstep as [value w|t w Ht|item v w|w|w|value item result w
                    |fnVectorize m' w Hset].
  - unfold create_enter.
    destruct (_vectorize (manager w)); [|done].
    destruct (_timeout (manager w)) eqn:Hto; simpl; rewrite ?Hto; simpl;
      rewrite ?Hto.
    + split; [done|]. split; [|done]. intros _. by destruct (_queue _).
    + rewrite Htimer. simpl. split; [eauto|]. split; [|done].
      intros _. by destruct (_queue _).
  - destruct (_timeout (manager w)) as [handle|];
      [|rewrite Htimer in Ht; by apply elem_of_nil in Ht].
    destruct Htimer as (t0 & Htimers & Hid).
    rewrite Htimers in Ht. apply list_elem_of_singleton in Ht. subst t0.
    assert (_queue (manager w) ≠ []) as Hne
      by (apply Hqueue; by rewrite Htimers).
    unfold expire. rewrite Htimers, filter_expired.
    unfold on_timer.
    destruct (timer_callback t); simpl.
    + destruct (_processing (manager w)); simpl; [eauto|].
      destruct (length (_queue (manager w)) <=? 1); simpl; [|eauto].
      split; [done|]. split; [done|].
      apply Forall_app. split; [done|]. by repeat constructor.
    + split; [done|]. split; [done|].
      apply Forall_app. split; [done|]. by repeat constructor.
  - done.
  - done.
  - done.
  - unfold create_leave.
    destruct (instanceof_Error result); [done|].
    by destruct (negb (isArray result)).
  - apply setEngine_inr in Hset as (Hq & Hto & _). simpl.
    by rewrite Hq, Hto.
Qed.

Lemma accepted_fresh_new : accepted_fresh new_VectorManager.
Proof.
  split; [constructor|]. intros item Hin. by apply elem_of_nil in Hin.
Qed.

Lemma debounce_inv_new : debounce_inv new_VectorManager.
Proof. by repeat split. Qed.

End Worlds.

Lemma sample_burst_reachable :
  rtc (world_step (H := sample_builtins)) sample_rest sample_burst.
Proof.
  eapply rtc_l; [apply (world_create (VStr "aa"))|].
  eapply rtc_l; [apply (world_create (VStr "bb"))|].
  eapply rtc_l.
  { apply (world_expire sample_fast_timer). vm_compute. left. }
  eapply rtc_l.
  { apply (world_expire sample_wait_timer). vm_compute. left. }
  apply rtc_refl.
Qed.

Lemma sample_rest_debounce : debounce_inv sample_rest.
Proof. by repeat split. Qed.

Lemma sample_rest_fresh : accepted_fresh sample_rest.
Proof.
  split; [constructor|]. intros item Hin. by apply elem_of_nil in Hin.
Qed.

Lemma reachable_debounce `{Builtins} w0 w :
  debounce_inv w0 → rtc world_step w0 w → debounce_inv w.
Proof.
  intros Hinv Hreach. induction Hreach as [w|w0 w1 w Hstep _ IH]; [done|].
  by eapply IH, world_step_debounce.
Qed.

(** X10. The manager keeps at most one timer pending, and [_timeout] is
    its handle: this holds of a new manager and after every step from a
    state in which it holds. *)
Theorem one_timer_at_most `{Builtins} (w0 w : World) :
  debounce_inv w0 →
  rtc world_step w0 w →
  length (timers w) ≤ 1
  ∧ (∀ t, t ∈ timers w → _timeout (manager w) = Some (timer_id t))
  ∧ (_timeout (manager w) = None → timers w = [])
  ∧ debounce_inv new_VectorManager.
Proof.
  intros Hinv Hreach.
  destruct (reachable_debounce w0 w Hinv Hreach) as (Htimer & _).
  unfold timer_inv in Htimer.
  destruct (_timeout (manager w)) as [handle|].
  - destruct Htimer as (t & -> & <-). split; [simpl; lia|].
    split; [|split; [done|apply debounce_inv_new]].
    intros t' Hin. apply list_elem_of_singleton in Hin. by subst.
  - rewrite Htimer. split; [simpl; lia|]. split; [|done].
    intros t Hin. by apply elem_of_nil in Hin.
Qed.

Lemma one_timer_at_most_witness :
  length (timers sample_burst) ≤ 1
  ∧ (_timeout (manager sample_burst) = None → timers sample_burst = []).
Proof.
  destruct (one_timer_at_most (H := sample_builtins) sample_rest
              sample_burst sample_rest_debounce sample_burst_reachable)
    as (Hlen & _ & Hnone & _).
  split; [exact Hlen|exact Hnone].
Defined.

(** X11. No flush is handed an empty queue, so the engine is never given
    an empty batch: while a timer is pending the queue is not empty, every
    queue handed to [batchVectorize] holds a request, and none of the
    batches made from it is empty. *)
Theorem no_empty_flush `{Builtins} (w0 w : World) :
  debounce_inv w0 →
  rtc world_step w0 w →
  (timers w ≠ [] → _queue (manager w) ≠ [])
  ∧ Forall (λ queue,
              queue ≠ []
              ∧ ∀ maximumBatchSize,
                  Forall (λ batch, batch ≠ [])
                    (split_batches maximumBatchSize (strValues_of queue)))
      (flushed w).
Proof.
  intros Hinv Hreach.
  destruct (reachable_debounce w0 w Hinv Hreach) as (_ & Hqueue & Hflushed).
  split; [done|].
  eapply Forall_impl; [exact Hflushed|].
  intros [|item queue] Hne; [done|]. split; [done|].
  intros m. unfold strValues_of. rewrite fmap_cons.
  destruct (split_shape_nonempty m (convertToString (item_value item))
              ((λ item, convertToString (item_value item)) <$> queue))
    as (closed & cur & _ & _ & Hall & _).
  exact Hall.
Qed.

Lemma no_empty_flush_witness :
  Forall (λ queue,
            queue ≠ []
            ∧ ∀ maximumBatchSize,
                Forall (λ batch, batch ≠ [])
                  (split_batches maximumBatchSize
                     (strValues_of (H := sample_builtins) queue)))
    (flushed sample_burst).
Proof.
  destruct (no_empty_flush (H := sample_builtins) sample_rest sample_burst
              sample_rest_debounce sample_burst_reachable) as [_ Hflushed].
  exact Hflushed.
Defined.

(** X12. An accepted request is never dropped, duplicated or moved: the
    requests accepted so far (those handed to flushes, then those queued)
    only ever grow at the end. *)
Theorem requests_conserved `{Builtins} (w w' : World) :
  rtc world_step w w' →
  accepted w `prefix_of` accepted w'.
Proof.
  induction 1 as [w|w w1 w' Hstep _ IH]; [done|].
  etrans; [|exact IH].
  destruct (world_step_accepted w w1 Hstep) as [[-> _]|(value & -> & _)];
    [done|by apply prefix_app_r].
Qed.

Lemma requests_conserved_witness :
  accepted sample_rest `prefix_of` accepted sample_burst.
Proof.
  apply (requests_conserved (H := sample_builtins)).
  exact sample_burst_reachable.
Defined.

Lemma NoDup_fmap_mjoin {A B : Type} (f : A → B) (ls : list (list A)) :
  NoDup (f <$> mjoin ls) → Forall (λ l, NoDup (f <$> l)) ls.
Proof.
  induction ls as [|l ls IH]; simpl; intros Hnd; [constructor|].
  rewrite fmap_app in Hnd. apply NoDup_app in Hnd as (Hl & _ & Hls).
  constructor; auto.
Qed.

(** X13. No two accepted requests share an identity: the keys of the
    result store are distinct across the queue and all the flushes, so
    every queue handed to [batchVectorize] is free of duplicates. *)
Theorem accepted_requests_distinct `{Builtins} (w0 w : World) :
  accepted_fresh w0 →
  rtc world_step w0 w →
  NoDup (item_id <$> accepted w)
  ∧ NoDup (item_id <$> _queue (manager w))
  ∧ Forall (λ queue, NoDup (item_id <$> queue)) (flushed w)
  ∧ accepted_fresh new_VectorManager.
Proof.
  intros Hfresh Hreach.
  assert (accepted_fresh w) as [Hnd _].
  { induction Hreach as [w|w0 w1 w Hstep _ IH]; [done|].
    by eapply IH, world_step_fresh. }
  split; [done|]. unfold accepted in Hnd. rewrite fmap_app in Hnd.
  apply NoDup_app in Hnd as (Hfl & _ & Hq).
  split; [done|]. split; [by apply NoDup_fmap_mjoin|].
  apply accepted_fresh_new.
Qed.

Lemma accepted_requests_distinct_witness :
  NoDup (item_id <$> accepted sample_burst).
Proof.
  destruct (accepted_requests_distinct (H := sample_builtins) sample_rest
              sample_burst sample_rest_fresh sample_burst_reachable)
    as (Hnd & _).
  exact Hnd.
Defined.

(** * [create], [batchCreate] and the timers together *)

(** [create] with an engine set: the request goes to the end of the
    queue, and the fast timer is started unless a timer is set. *)
Lemma create_enter_accepts (value : Value) (w : World) :
  is_Some (_vectorize (manager w)) →
  (create_enter value w).1
  = inr {| item_id := heap w; item_value := value |}
  ∧ _queue (manager (create_enter value w).2)
    = _queue (manager w) ++ [{| item_id := heap w; item_value := value |}]
  ∧ flushed (create_enter value w).2 = flushed w
  ∧ _vectorize (manager (create_enter value w).2) = _vectorize (manager w)
  ∧ _processing (manager (create_enter value w).2)
    = _processing (manager w)
  ∧ fastQueueTime (manager (create_enter value w).2)
    = fastQueueTime (manager w)
  ∧ waitQueueTime (manager (create_enter value w).2)
    = waitQueueTime (manager w)
  ∧ match _timeout (manager w) with
    | Some handle =>
        timers (create_enter value w).2 = timers w
        ∧ _timeout (manager (create_enter value w).2) = Some handle
    | None =>
        timers (create_enter value w).2
        = timers w ++ [{| timer_id := S (heap w);
                          timer_delay := fastQueueTime (manager w);
                          timer_callback := FastExpiry |}]
        ∧ _timeout (manager (create_enter value w).2) = Some (S (heap w))
    end.
Proof.
  intros [engine Hengine]. unfold create_enter. rewrite Hengine.
  destruct (_timeout (manager w)) eqn:Hto; simpl; rewrite Hto; simpl;
    by repeat split.
Qed.

(** Once a timer is set, further [create] calls only queue. *)
Lemma batchCreate_enter_queues (values : list Value) :
  ∀ rs w handle,
    is_Some (_vectorize (manager w)) →
    _timeout (manager w) = Some handle →
    ∃ items,
      (create_all (rs, w) values).1 = rs ++ (inr <$> items)
      ∧ item_value <$> items = values
      ∧ _queue (manager (create_all (rs, w) values).2)
        = _queue (manager w) ++ items
      ∧ flushed (create_all (rs, w) values).2 = flushed w
      ∧ timers (create_all (rs, w) values).2 = timers w
      ∧ _timeout (manager (create_all (rs, w) values).2) = Some handle
      ∧ _processing (manager (create_all (rs, w) values).2)
        = _processing (manager w)
      ∧ waitQueueTime (manager (create_all (rs, w) values).2)
        = waitQueueTime (manager w)
      ∧ fastQueueTime (manager (create_all (rs, w) values).2)
        = fastQueueTime (manager w).
Proof.
  induction values as [|value values IH]; intros rs w handle Hengine Hto.
  - exists []. simpl. by rewrite !app_nil_r.
  - destruct (create_enter_accepts value w Hengine)
      as (Hr & Hq & Hfl & Hv & Hp & Hfast & Hwait & Htimers).
    rewrite Hto in Htimers. destruct Htimers as [Htimers Hto'].
    unfold create_all in *. cbn [foldl]. cbn [snd fst].
    destruct (create_enter value w) as [r w1] eqn:Hcreate.
    simpl in Hr, Hq, Hfl, Hv, Hp, Hfast, Hwait, Htimers, Hto'. subst r.
    destruct (IH (rs ++ [inr {| item_id := heap w; item_value := value |}])
                w1 handle)
      as (items & Hrs & Hvals & Hq' & Hfl' & Ht' & Hto'' & Hp' & Hw' & Hf');
      [by rewrite Hv|done|].
    exists ({| item_id := heap w; item_value := value |} :: items).
    rewrite Hrs, Hq', Hfl', Ht', Hto'', Hp', Hw', Hf'.
    rewrite Hq, Hfl, Htimers, Hp, Hwait, Hfast, fmap_cons, fmap_cons, Hvals.
    simpl. by rewrite <- !app_assoc.
Qed.

(** X14. With an engine set, [batchCreate] queues one request per value,
    in the order of the values and behind what was queued, hands nothing
    to a flush yet, and starts at most one timer, the fast one. *)
Theorem batchCreate_enqueues_in_order (values : list Value) (w : World) :
  is_Some (_vectorize (manager w)) →
  ∃ items,
    (batchCreate_enter values w).1 = inr <$> items
    ∧ item_value <$> items = values
    ∧ _queue (manager (batchCreate_enter values w).2)
      = _queue (manager w) ++ items
    ∧ flushed (batchCreate_enter values w).2 = flushed w
    ∧ (timers (batchCreate_enter values w).2 = timers w
       ∨ ∃ t,
           timers (batchCreate_enter values w).2 = timers w ++ [t]
           ∧ timer_callback t = FastExpiry
           ∧ timer_delay t = fastQueueTime (manager w)
           ∧ _timeout (manager w) = None).
Proof.
  intros Hengine. unfold batchCreate_enter.
  destruct values as [|value values].
  { exists []. simpl. rewrite app_nil_r. repeat split; try done. by left. }
  destruct (create_enter_accepts value w Hengine)
    as (Hr & Hq & Hfl & Hv & Hp & Hfast & Hwait & Htimers).
  unfold create_all. cbn [foldl]. cbn [fst snd].
  destruct (create_enter value w) as [r w1] eqn:Hcreate.
  simpl in Hr, Hq, Hfl, Hv, Hp, Hfast, Hwait, Htimers. subst r.
  assert (∃ handle, _timeout (manager w1) = Some handle) as [handle Hto].
  { destruct (_timeout (manager w)); destruct Htimers as [_ ->]; eauto. }
  destruct (batchCreate_enter_queues values
              ([] ++ [inr {| item_id := heap w; item_value := value |}])
              w1 handle)
    as (items & Hrs & Hvals & Hq' & Hfl' & Ht' & _);
    [by rewrite Hv|done|].
  unfold create_all in *.
  exists ({| item_id := heap w; item_value := value |} :: items).
  rewrite Hrs, Hq', Hfl', Ht', Hq, Hfl, !fmap_cons, Hvals.
  split; [done|]. split; [done|]. split; [by rewrite <- app_assoc|].
  split; [done|].
  destruct (_timeout (manager w)); destruct Htimers as [-> _];
    [by left|right]. by eexists.
Qed.

Lemma batchCreate_enqueues_in_order_witness :
  ∃ items,
    (batchCreate_enter [VStr "aa"; VStr "bb"] sample_rest).1 = inr <$> items
    ∧ item_value <$> items = [VStr "aa"; VStr "bb"].
Proof.
  destruct (batchCreate_enqueues_in_order [VStr "aa"; VStr "bb"]
              sample_rest) as (items & Hrs & Hvals & _).
  - by eexists.
  - exists items. split; [exact Hrs|exact Hvals].
Defined.

Lemma create_all_without_engine (values : list Value) :
  ∀ rs w,
    _vectorize (manager w) = None →
    ∃ errors,
      (create_all (rs, w) values).1 = rs ++ errors
      ∧ length errors = length values
      ∧ Forall (λ r, ∃ id, r = inl (VError id no_engine_message)) errors
      ∧ manager (create_all (rs, w) values).2 = manager w
      ∧ timers (create_all (rs, w) values).2 = timers w
      ∧ flushed (create_all (rs, w) values).2 = flushed w.
Proof.
  induction values as [|value values IH]; intros rs w Hnone.
  - exists []. simpl. by rewrite app_nil_r.
  - assert (create_enter value w
            = (inl (VError (heap w) no_engine_message),
               {| manager := manager w; timers := timers w;
                  heap := S (heap w); flushed := flushed w |})) as Hcreate
      by (unfold create_enter; by rewrite Hnone).
    unfold create_all in *. cbn [foldl]. cbn [fst snd]. rewrite Hcreate.
    destruct (IH (rs ++ [inl (VError (heap w) no_engine_message)])
                {| manager := manager w; timers := timers w;
                   heap := S (heap w); flushed := flushed w |} Hnone)
      as (errors & Hrs & Hlen & Hall & Hm & Ht & Hfl).
    exists (inl (VError (heap w) no_engine_message) :: errors).
    rewrite Hrs, Hm, Ht, Hfl. simpl.
    split; [by rewrite <- app_assoc|]. split; [by rewrite Hlen|].
    split; [|done]. constructor; eauto.
Qed.

(** X15. Without an engine every [create] of a [batchCreate] throws the
    no-engine error, and nothing is queued or scheduled. *)
Theorem batchCreate_without_engine (values : list Value) (w : World) :
  _vectorize (manager w) = None →
  length (batchCreate_enter values w).1 = length values
  ∧ Forall (λ r, ∃ id, r = inl (VError id no_engine_message))
      (batchCreate_enter values w).1
  ∧ manager (batchCreate_enter values w).2 = manager w
  ∧ timers (batchCreate_enter values w).2 = timers w
  ∧ flushed (batchCreate_enter values w).2 = flushed w.
Proof.
  intros Hnone. unfold batchCreate_enter.
  destruct (create_all_without_engine values [] w Hnone)
    as (errors & Hrs & Hlen & Hall & Hm & Ht & Hfl).
  rewrite Hrs. simpl. by repeat split.
Qed.

Lemma batchCreate_without_engine_witness :
  length (batchCreate_enter [VStr "aa"; VNull] new_VectorManager).1 = 2
  ∧ manager (batchCreate_enter [VStr "aa"; VNull] new_VectorManager).2
    = __initialize__.
Proof.
  destruct (batchCreate_without_engine [VStr "aa"; VNull] new_VectorManager
              eq_refl) as (Hlen & _ & Hm & _).
  split; [exact Hlen|exact Hm].
Defined.

(** X16. A lone request is flushed by the fast timer: on a manager at
    rest, [create] queues the request and sets the fast timer, and the
    expiry of that timer hands the one-request queue to a flush, leaving
    the queue empty, no timer pending and the manager marked as
    processing. *)
Theorem lone_request_flushed_fast (value : Value) (w : World) :
  at_rest w →
  let item := {| item_id := heap w; item_value := value |} in
  let fast := {| timer_id := S (heap w);
                 timer_delay := fastQueueTime (manager w);
                 timer_callback := FastExpiry |} in
  let w1 := (create_enter value w).2 in
  (create_enter value w).1 = inr item
  ∧ timers w1 = [fast]
  ∧ flushed w1 = flushed w
  ∧ flushed (expire fast w1) = flushed w ++ [[item]]
  ∧ _queue (manager (expire fast w1)) = []
  ∧ timers (expire fast w1) = []
  ∧ _timeout (manager (expire fast w1)) = None
  ∧ _processing (manager (expire fast w1)) = true.
Proof.
  intros (Hengine & Hq & Hto & Htimers & Hproc) item fast w1.
  destruct (create_enter_accepts value w Hengine)
    as (Hr & Hq1 & Hfl1 & _ & Hp1 & _ & _ & Ht1).
  rewrite Hto, Htimers in Ht1. destruct Ht1 as [Ht1 Hto1].
  rewrite Hq in Hq1. simpl in Hq1, Ht1.
  fold w1 in Hq1, Hfl1, Hp1, Ht1, Hto1. fold item in Hr, Hq1.
  fold fast in Ht1.
  split; [done|]. split; [done|]. split; [done|].
  unfold expire. rewrite Ht1, filter_expired.
  unfold on_timer. cbn [timer_callback fast manager].
  rewrite Hp1, Hproc, Hq1. cbn [length Nat.leb].
  unfold __dequeue__. simpl. rewrite Hq1, Hfl1. by repeat split.
Qed.

Lemma lone_request_flushed_fast_witness :
  flushed (expire sample_fast_timer
             (create_enter (VStr "hello") sample_rest).2)
  = [[item_of 0 "hello"]].
Proof.
  destruct (lone_request_flushed_fast (VStr "hello") sample_rest)
    as (_ & _ & _ & Hflushed & _).
  - repeat split; try reflexivity. by eexists.
  - exact Hflushed.
Defined.

(** X17. A burst is flushed once, by the second timer: on a manager at
    rest, a [batchCreate] of two or more values sets the fast timer; its
    expiry sets a timer of [waitQueueTime - fastQueueTime] and flushes
    nothing; the expiry of that one hands the whole burst, in the order of
    the values, to a single flush. *)
Theorem burst_flushed_once (values : list Value) (w : World) :
  at_rest w →
  2 ≤ length values →
  let w1 := (batchCreate_enter values w).2 in
  let fast := {| timer_id := S (heap w);
                 timer_delay := fastQueueTime (manager w);
                 timer_callback := FastExpiry |} in
  let wait := {| timer_id := heap w1;
                 timer_delay := (waitQueueTime (manager w)
                                 - fastQueueTime (manager w))%Z;
                 timer_callback := WaitExpiry |} in
  ∃ queue,
    item_value <$> queue = values
    ∧ timers w1 = [fast]
    ∧ timers (expire fast w1) = [wait]
    ∧ flushed (expire fast w1) = flushed w
    ∧ flushed (expire wait (expire fast w1)) = flushed w ++ [queue]
    ∧ _queue (manager (expire wait (expire fast w1))) = []
    ∧ timers (expire wait (expire fast w1)) = []
    ∧ _processing (manager (expire wait (expire fast w1))) = true.
Proof.
  intros (Hengine & Hq & Hto & Htimers & Hproc) Hlen w1 fast wait.
  destruct values as [|value values]; [simpl in Hlen; lia|].
  destruct (create_enter_accepts value w Hengine)
    as (Hr & Hq0 & Hfl0 & Hv0 & Hp0 & Hfast0 & Hwait0 & Ht0).
  rewrite Hto, Htimers in Ht0. destruct Ht0 as [Ht0 Hto0].
  rewrite Hq in Hq0. simpl in Hq0, Ht0. fold fast in Ht0.
  assert (w1 = (create_all ([inr {| item_id := heap w;
                                    item_value := value |}],
                            (create_enter value w).2) values).2) as Hw1.
  { unfold w1, batchCreate_enter, create_all. cbn [foldl]. cbn [fst snd].
    by destruct (create_enter value w); simpl in *; subst. }
  destruct (batchCreate_enter_queues values
              [inr {| item_id := heap w; item_value := value |}]
              (create_enter value w).2 (S (heap w)))
    as (items & _ & Hvals & Hq1 & Hfl1 & Ht1 & Hto1 & Hp1 & Hwait1 & Hfast1);
    [by rewrite Hv0|done|].
  rewrite <- Hw1 in Hq1, Hfl1, Ht1, Hto1, Hp1, Hwait1, Hfast1.
  rewrite Hq0 in Hq1. rewrite Ht0 in Ht1. rewrite Hfl0 in Hfl1.
  rewrite Hp0, Hproc in Hp1. rewrite Hwait0 in Hwait1.
  rewrite Hfast0 in Hfast1.
  destruct items as [|item2 items];
    [destruct values; [simpl in Hlen; lia|done]|].
  exists ({| item_id := heap w; item_value := value |} :: item2 :: items).
  split; [by rewrite fmap_cons, Hvals|]. split; [done|].
  assert (expire fast w1
          = {| manager := set_timeout (Some (heap w1)) (manager w1);
               timers := [wait]; heap := S (heap w1);
               flushed := flushed w |}) as Hfired.
  { unfold expire. rewrite Ht1, filter_expired.
    unfold on_timer. cbn [timer_callback fast manager].
    rewrite Hp1, Hq1. cbn [length Nat.leb app].
    unfold setTimeout, with_manager. simpl.
    by rewrite Hwait1, Hfast1, Hfl1. }
  rewrite Hfired. split; [done|]. split; [done|].
  unfold expire. cbn [timers]. rewrite filter_expired.
  unfold on_timer, __dequeue__. simpl. rewrite Hq1. by repeat split.
Qed.

Lemma burst_flushed_once_witness :
  ∃ queue,
    item_value <$> queue = [VStr "aa"; VStr "bb"]
    ∧ flushed sample_burst = [queue].
Proof.
  destruct (burst_flushed_once [VStr "aa"; VStr "bb"] sample_rest)
    as (queue & Hvals & _ & _ & _ & Hflushed & _).
  - repeat split; try reflexivity. by eexists.
  - simpl. lia.
  - exists queue. split; [exact Hvals|exact Hflushed].
Defined.

(** * The dispatch never throws *)





(** * The result slot *)

(** X19. A result slot is read once: after a value has been stored for a
    request, the test of its wait loop finds that value; once [create] has
    left the loop the slot is gone, and the slots of the other requests,
    the queue, the timers and the flushes are as they were. *)
Theorem result_slot_one_shot `{Builtins} (value : Value)
    (item other : Item) (v : Value) (w : World) :
  truthy v = true →
  item_id other ≠ item_id item →
  create_poll (<[item_id item := v]> (_results (manager w))) item = Some v
  ∧ create_poll (<[item_id item := v]> (_results (manager w))) other
    = create_poll (_results (manager w)) other
  ∧ create_poll (_results (manager (create_leave value item v w).2)) item
    = None
  ∧ create_poll (_results (manager (create_leave value item v w).2)) other
    = create_poll (_results (manager w)) other
  ∧ accepted (create_leave value item v w).2 = accepted w
  ∧ timers (create_leave value item v w).2 = timers w.
Proof.
  intros Ht Hne.
  assert (_results (manager (create_leave value item v w).2)
          = delete (item_id item) (_results (manager w))) as Hres.
  { unfold create_leave. destruct (instanceof_Error v); [done|].
    by destruct (negb (isArray v)). }
  split; [|split; [|split; [|split; [|split]]]].
  - apply create_poll_truthy; [apply lookup_insert_eq|done].
  - unfold create_poll, results_get. by rewrite lookup_insert_ne.
  - apply create_poll_absent. rewrite Hres. apply lookup_delete_eq.
  - unfold create_poll, results_get. rewrite Hres.
    by rewrite lookup_delete_ne.
  - unfold create_leave, accepted. destruct (instanceof_Error v); [done|].
    by destruct (negb (isArray v)).
  - unfold create_leave. destruct (instanceof_Error v); [done|].
    by destruct (negb (isArray v)).
Qed.

Lemma result_slot_one_shot_witness :
  create_poll
    (_results (manager (create_leave (H := sample_builtins) (VStr "aa")
                          (item_of 0 "aa") (sample_vector "aa")
                          sample_rest).2))
    (item_of 0 "aa") = None.
Proof.
  destruct (result_slot_one_shot (H := sample_builtins) (VStr "aa")
              (item_of 0 "aa") (item_of 1 "bb") (sample_vector "aa")
              sample_rest) as (_ & _ & Hgone & _).
  - reflexivity.
  - simpl. lia.
  - exact Hgone.
Defined.

(** * [setEngine] *)

(** X20. [setEngine] refuses what is not a function and what is not an
    asynchronous function, each with its own message; given an
    asynchronous function it changes nothing but the engine, after which
    [create] accepts requests. *)
Theorem setEngine_then_create (fnVectorize : EngineArgument) (value : Value)
    (w : World) :
  match fnVectorize with
  | NotAFunction _ =>
      setEngine fnVectorize (manager w)
      = inl ".setEngine(fn) expects a valid function"
  | PlainFunction =>
      setEngine fnVectorize (manager w)
      = inl ".setEngine(fn) expects an Asynchronous function"
  | AsyncFunction engine =>
      ∃ m',
        setEngine fnVectorize (manager w) = inr m'
        ∧ _vectorize m' = Some engine
        ∧ _queue m' = _queue (manager w)
        ∧ _results m' = _results (manager w)
        ∧ _timeout m' = _timeout (manager w)
        ∧ _processing m' = _processing (manager w)
        ∧ (create_enter value (with_manager (λ _, m') w)).1
          = inr {| item_id := heap w; item_value := value |}
        ∧ accepted (create_enter value (with_manager (λ _, m') w)).2
          = accepted w ++ [{| item_id := heap w; item_value := value |}]
  end.
Proof.
  destruct fnVectorize as [v| |engine]; [done|done|].
  eexists. split; [reflexivity|]. simpl.
  repeat (split; [done|]).
  unfold create_enter, accepted. simpl.
  destruct (_timeout (manager w)); simpl; by rewrite app_assoc.
Qed.

(** * What the engine sees of plain requests *)

(** X21. A string request within the budget reaches the engine as the
    very string, and a [null] or [undefined] request as the empty string,
    in the order of the queue. *)
Theorem plain_requests_sent_verbatim `{Builtins} (maximumBatchSize : nat)
    (queue : list Item) :
  Forall (λ item,
            match item_value item with
            | VStr s => String.length s ≤ maximumBatchSize
            | VNull | VUndefined => True
            | _ => False
            end) queue →
  mjoin (split_batches maximumBatchSize (strValues_of queue))
  = (λ item, match item_value item with VStr s => s | _ => "" end)
      <$> queue.
Proof.
  intros Hplain. rewrite strValues_flatten.
  induction Hplain as [|item queue Hitem _ IH]; [done|].
  rewrite !fmap_cons, IH. f_equal.
  destruct (item_value item) as [| | | |s| | |]; try done;
    try (by destruct maximumBatchSize).
  change (slice0 maximumBatchSize s = s). by apply slice0_fits.
Qed.

Lemma plain_requests_sent_verbatim_witness :
  mjoin (split_batches 4
           (strValues_of (H := sample_builtins)
              [item_of 0 "aa"; {| item_id := 1; item_value := VNull |}]))
  = ["aa"; ""].
Proof.
  apply (plain_requests_sent_verbatim (H := sample_builtins) 4
           [item_of 0 "aa"; {| item_id := 1; item_value := VNull |}]).
  repeat constructor.
Defined.
